(** * Data-parallel CIFAR-100 training script: a shallow embedding

    The development follows [ddp_cifar100_val.py]: the gradient
    synchronizer [average_gradients], the validation scatter set-up, the
    per-epoch validation loop with its metric reduction, and the order in
    which [run_training] drives them.

    Tensors hold exact rationals ([Q]) in place of floats; every worker of
    the process group runs the same script, so a collective call is modelled
    on the whole group at once: the group state is a list indexed by rank. *)

From Stdlib Require Import ZArith QArith List Lia.
From stdpp Require Import base list.
Import ListNotations.

Local Open Scope nat_scope.

(** ** Python exceptions and fallible computations *)

Inductive py_error : Type :=
  | AttributeError
  | TypeError
  | ZeroDivisionError
  | RuntimeError.

Inductive result (A : Type) : Type :=
  | Ok (a : A)
  | Raise (e : py_error).

Arguments Ok {A} a.
Arguments Raise {A} e.

Definition bind {A B : Type} (r : result A) (k : A -> result B) : result B :=
  match r with
  | Ok a => k a
  | Raise e => Raise e
  end.

Notation "x <- r ;; k" := (bind r (fun x => k))
  (at level 100, r at next level, right associativity).

Fixpoint mapM {A B : Type} (f : A -> result B) (l : list A) : result (list B) :=
  match l with
  | [] => Ok []
  | a :: l' => b <- f a ;; bs <- mapM f l' ;; Ok (b :: bs)
  end.

(** ** Tensors and the collective channel *)

(** A (flattened) tensor of exact rationals. *)
Abbreviation tensor := (list Q).

Definition tensor_add (a b : tensor) : tensor := zip_with Qplus a b.

(** [t /= c] *)
Definition tensor_div (t : tensor) (c : Q) : tensor := map (fun x => Qdiv x c) t.

(** Element-wise sum of the tensors supplied by the participants. *)
Definition tensor_sum (ts : list tensor) : tensor :=
  match ts with
  | [] => []
  | t :: ts' => foldl tensor_add t ts'
  end.

(** [dist.all_reduce(t, op=ReduceOp.SUM)]: rank [r] supplies [ts !! r]; every
    rank's tensor is overwritten with the element-wise sum. *)
Definition all_reduce_sum (ts : list tensor) : list tensor :=
  map (fun _ => tensor_sum ts) ts.

(** [float(n)] *)
Definition float (n : nat) : Q := inject_Z (Z.of_nat n).

(** ** [average_gradients] *)

(** [param.grad] of every parameter of one worker's model, in the order of
    [model.parameters()]; [None] is an undefined gradient. *)
Abbreviation grads := (list (option tensor)).

(** [param.grad.data] for the [i]-th parameter: attribute access on [None]
    raises. *)
Definition grad_data (i : nat) (g : grads) : result tensor :=
  match g !! i with
  | Some (Some t) => Ok t
  | _ => Raise AttributeError
  end.

(** One iteration of the loop body, run by every worker on parameter [i]:
    [dist.all_reduce(param.grad.data, op=SUM); param.grad.data /= size].
    The group gets through the iteration only if no rank raises on its
    [param.grad.data]: the collective waits for every participant. *)
Definition sync_param (size : Q) (ws : list grads) (i : nat) : result (list grads) :=
  ts <- mapM (grad_data i) ws ;;
  Ok (zip_with (fun g t => <[i := Some (tensor_div t size)]> g) ws (all_reduce_sum ts)).

(** Every worker holds the same [Net], hence the same number of parameters. *)
Definition num_parameters (ws : list grads) : nat :=
  match ws with
  | [] => 0
  | g :: _ => length g
  end.

Definition average_gradients (ws : list grads) : result (list grads) :=
  let size := float (length ws) in
  foldl (fun acc i => ws' <- acc ;; sync_param size ws' i) (Ok ws)
        (seq 0 (num_parameters ws)).

(** The tensors that the workers contribute for parameter [i]. *)
Fixpoint column (i : nat) (ws : list grads) : list tensor :=
  match ws with
  | [] => []
  | g :: ws' =>
      match g !! i with
      | Some (Some t) => t :: column i ws'
      | _ => column i ws'
      end
  end.

(** ** The validation scatter set-up of [run_training] *)

(** Python numbers: [/] on two ints yields a float, also when the division
    is exact. *)
Inductive py_num : Type :=
  | PyInt (z : Z)
  | PyFloat (q : Q).

Definition py_to_Q (n : py_num) : Q :=
  match n with
  | PyInt z => inject_Z z
  | PyFloat q => q
  end.

Definition py_is_zero (n : py_num) : bool :=
  match n with
  | PyInt z => Z.eqb z 0
  | PyFloat q => Qeq_bool q 0
  end.

(** [a / b] *)
Definition py_truediv (a b : py_num) : result py_num :=
  if py_is_zero b then Raise ZeroDivisionError
  else Ok (PyFloat (Qdiv (py_to_Q a) (py_to_Q b))).

Definition as_int (n : py_num) : result Z :=
  match n with
  | PyInt z => Ok z
  | PyFloat _ => Raise TypeError
  end.

(** The shape of a tensor. *)
Abbreviation shape := (list nat).

(** [torch.zeros(size=...)]: every dimension must be an int, and must not be
    negative; the buffer is represented by its shape. *)
Definition torch_zeros (size : list py_num) : result shape :=
  dims <- mapM as_int size ;;
  if forallb (fun z => Z.leb 0 z) dims then Ok (map Z.to_nat dims)
  else Raise RuntimeError.

(** A two-dimensional tensor: its rows and [shape[1]]. *)
Record tensor2 : Type := Tensor2 { rows : list tensor; cols : nat }.

Definition shape_of (t : tensor2) : shape := [length (rows t); cols t].

(** The number of chunks [torch.split] produces along a dimension. *)
Definition num_splits (dim_size split_size : nat) : nat :=
  Nat.max ((dim_size + split_size - 1) / split_size) 1.

(** [torch.split(t, split_size)]: consecutive chunks of [split_size] rows,
    the last one holding what is left. *)
Definition torch_split (t : tensor2) (split_size : nat) : result (list tensor2) :=
  if Nat.eqb split_size 0 && negb (Nat.eqb (length (rows t)) 0) then Raise RuntimeError
  else Ok (map (fun i => Tensor2 (take split_size (drop (i * split_size) (rows t))) (cols t))
               (seq 0 (num_splits (length (rows t)) split_size))).

Definition shape_eqb (a b : shape) : bool :=
  bool_decide (a = b).

(** A Python sequence is a list or a tuple. *)
Inductive py_seq (A : Type) : Type :=
  | PyList (l : list A)
  | PyTuple (l : list A).

Arguments PyList {A} l.
Arguments PyTuple {A} l.

(** [dist.scatter(val, scatter_list=...)] on the source rank: [scatter_list]
    must be a list of tensors, a tuple is refused with [TypeError]; the list
    holds one tensor per participant, each of the size of the receive
    buffer. *)
Definition dist_scatter (world_size : nat) (val : shape) (scatter_list : py_seq tensor2)
  : result unit :=
  match scatter_list with
  | PyTuple _ => Raise TypeError
  | PyList l =>
      if Nat.eqb (length l) world_size
         && forallb (fun c => shape_eqb (shape_of c) val) l
      then Ok tt else Raise RuntimeError
  end.

(** The [rank == 0] branch, from [val_tensor] on; [torch.split] returns a
    tuple, which is what the scatter is given. *)
Definition val_setup_rank0 (process_count : nat) (val_tensor : tensor2)
  : result (shape * list tensor2) :=
  val_tensor_list <- torch_split val_tensor process_count ;;
  d <- py_truediv (PyInt (Z.of_nat (length (rows val_tensor))))
                  (PyInt (Z.of_nat process_count)) ;;
  val <- torch_zeros [d; PyInt (Z.of_nat (cols val_tensor))] ;;
  _ <- dist_scatter process_count val (PyTuple val_tensor_list) ;;
  Ok (val, val_tensor_list).

(** The receive buffer of the [else] branch: [torch.zeros(size=(10,))]. *)
Definition val_buffer_other_rank : result shape :=
  torch_zeros [PyInt 10].

(** ** The validation loop and the metric reduction *)

(** What the model produces for one validation example: its cross-entropy
    term and whether [argmax] hits the target. *)
Record scored : Type := Scored { ex_loss : Q; ex_correct : bool }.

Definition qsum (l : list Q) : Q := foldr Qplus 0%Q l.

Definition correct_count (b : list scored) : nat :=
  length (List.filter ex_correct b).

(** [cross_entropy(output, target)]: the mean over the batch. *)
Definition cross_entropy (b : list scored) : Q :=
  Qdiv (qsum (map ex_loss b)) (float (length b)).

(** [(output.argmax(dim=1) == target).float().sum()] *)
Definition correct_sum (b : list scored) : Q := float (correct_count b).

Record val_acc_state : Type :=
  ValAcc { val_loss : Q; val_acc : Q; elements_count : nat }.

Definition val_step (st : val_acc_state) (b : list scored) : val_acc_state :=
  {| val_loss := Qplus (val_loss st) (cross_entropy b);
     val_acc := Qplus (val_acc st) (correct_sum b);
     elements_count := elements_count st + length b |}.

(** One worker's pass over its [val_loader], up to [sync_tensor]. *)
Definition validate (val_loader : list (list scored)) : result tensor :=
  let st := foldl val_step (ValAcc 0%Q 0%Q 0) val_loader in
  if Nat.eqb (elements_count st) 0 then Raise ZeroDivisionError
  else Ok [val_loss st; Qdiv (val_acc st) (float (elements_count st))].

(** [dist.all_reduce(sync_tensor, op=SUM); sync_tensor /= world_size], on
    the whole group: the result holds every rank's [sync_tensor]. *)
Definition validation_sync (val_loaders : list (list (list scored))) : result (list tensor) :=
  locals <- mapM validate val_loaders ;;
  Ok (map (fun t => tensor_div t (float (length val_loaders))) (all_reduce_sum locals)).

(** Rank 0 unpacks [epoch_loss, acc = sync_tensor] and prints
    [epoch_loss / num_batches] and [acc]; [num_batches] is
    [len(train_loader)]. *)
Definition validation_report (num_batches : nat) (sync_tensor : tensor) : result (Q * Q) :=
  match sync_tensor with
  | [epoch_loss; acc] => Ok (Qdiv epoch_loss (float num_batches), acc)
  | _ => Raise RuntimeError
  end.

(** What rank 0 reports after a validation pass. *)
Definition validation_epoch (num_batches : nat) (val_loaders : list (list (list scored)))
  : result (Q * Q) :=
  ts <- validation_sync val_loaders ;;
  match ts with
  | [] => Raise RuntimeError
  | sync_tensor :: _ => validation_report num_batches sync_tensor
  end.

(** Accuracy and mean loss computed directly over a set of examples. *)
Definition accuracy (l : list scored) : Q :=
  Qdiv (float (correct_count l)) (float (length l)).

Definition mean_loss (l : list scored) : Q :=
  Qdiv (qsum (map ex_loss l)) (float (length l)).

(** All shards, concatenated. *)
Definition all_examples (val_loaders : list (list (list scored))) : list scored :=
  concat (concat val_loaders).

(** The reported numbers are those of the concatenation of all shards. *)
Definition report_is_global (num_batches : nat) (val_loaders : list (list (list scored)))
  : Prop :=
  exists l a, validation_epoch num_batches val_loaders = Ok (l, a) /\
    Qeq l (mean_loss (all_examples val_loaders)) /\
    Qeq a (accuracy (all_examples val_loaders)).

(** ** The synchronized normalization layer *)

Section SyncBatchNorm.

(** [torch.sqrt] on the rationals, the layer's [eps] and the floor the
    variance is clamped to. *)
Variable sqrt : Q -> Q.
Variables eps var_floor : Q.

(** Modelled from the spec: [syncbn.py] is not among the sources. The batch
    statistics record; each field is a tensor so that it can go through
    [reduce_sum]. *)
Record batch_stats : Type :=
  BatchStats { local_count : tensor; local_sum : tensor; local_sum_sq : tensor }.

(** Modelled from the spec: [syncbn.py] is not among the sources. The zero
    tensor the per-feature sums start from. *)
Definition zeros (n : nat) : tensor := replicate n 0%Q.

(** Modelled from the spec: [syncbn.py] is not among the sources. The
    squares of the features of one example. *)
Definition tensor_sq (x : tensor) : tensor := map (fun v => Qmult v v) x.

(** Modelled from the spec: [syncbn.py] is not among the sources. Step 1 of
    the training-mode forward pass: the batch size, the per-feature sum
    and the per-feature sum of squares of a local batch of shape
    [(local_count, feature_dim)]. *)
Definition local_stats (feature_dim : nat) (x : list tensor) : batch_stats :=
  {| local_count := [float (length x)];
     local_sum := foldl tensor_add (zeros feature_dim) x;
     local_sum_sq := foldl tensor_add (zeros feature_dim) (map tensor_sq x) |}.

(** Modelled from the spec: [syncbn.py] is not among the sources. Clamping
    to a floor. *)
Definition clamp_min (lo v : Q) : Q := if Qle_bool lo v then v else lo.

(** Modelled from the spec: [syncbn.py] is not among the sources. Step 3:
    [global_mean = global_sum / global_count]. *)
Definition global_mean (global_count : Q) (global_sum : tensor) : tensor :=
  tensor_div global_sum global_count.

(** Modelled from the spec: [syncbn.py] is not among the sources. Step 3:
    [global_var = global_sum_sq / global_count - global_mean^2], clamped to
    the floor. *)
Definition global_var (global_count : Q) (global_sum global_sum_sq : tensor) : tensor :=
  zip_with (fun sq m => clamp_min var_floor (Qminus (Qdiv sq global_count) (Qmult m m)))
           global_sum_sq (global_mean global_count global_sum).

(** Modelled from the spec: [syncbn.py] is not among the sources. Step 4:
    [(x - global_mean) / sqrt(global_var + eps)] for one example. *)
Definition normalize (mean var x : tensor) : tensor :=
  zip_with (fun xm v => Qdiv xm (sqrt (Qplus v eps)))
           (zip_with Qminus x mean) var.

(** Modelled from the spec: [syncbn.py] is not among the sources. What one
    rank does with the reduced statistics; an empty global batch fails
    fast. *)
Definition normalize_rank (x : list tensor) (counts sums sqs : tensor) : result (list tensor) :=
  match counts with
  | [global_count] =>
      if Qeq_bool global_count 0 then Raise RuntimeError
      else Ok (map (normalize (global_mean global_count sums)
                              (global_var global_count sums sqs)) x)
  | _ => Raise RuntimeError
  end.

(** Modelled from the spec: [syncbn.py] is not among the sources. Every rank
    normalizes its local batch with the statistics it received. *)
Fixpoint normalize_ranks (xs : list (list tensor)) (counts sums sqs : list tensor)
  : result (list (list tensor)) :=
  match xs, counts, sums, sqs with
  | [], _, _, _ => Ok []
  | x :: xs', c :: counts', s :: sums', q :: sqs' =>
      y <- normalize_rank x c s q ;;
      ys <- normalize_ranks xs' counts' sums' sqs' ;;
      Ok (y :: ys)
  | _, _, _, _ => Raise RuntimeError
  end.

(** Modelled from the spec: [syncbn.py] is not among the sources. The
    training-mode forward pass on the whole group: rank [r] holds the
    local batch [xs !! r]; the three statistics go through [reduce_sum]
    (steps 1 and 2), then every rank normalizes its own examples. *)
Definition syncbn_forward_train (feature_dim : nat) (xs : list (list tensor))
  : result (list (list tensor)) :=
  let stats := map (local_stats feature_dim) xs in
  let global_counts := all_reduce_sum (map local_count stats) in
  let global_sums := all_reduce_sum (map local_sum stats) in
  let global_sum_sqs := all_reduce_sum (map local_sum_sq stats) in
  normalize_ranks xs global_counts global_sums global_sum_sqs.

End SyncBatchNorm.

(** ** The training loop of [run_training] *)

Inductive mode : Type := Training | Evaluation.

(** What a worker does to its model, in the order it does it. *)
Inductive op : Type :=
  | OpZeroGrad
  | OpForward (m : mode)
  | OpLoss
  | OpBackward
  | OpSyncGradients
  | OpOptimizerStep
  | OpMetricSync.

(** One worker: the parameters of its [Net] with their gradients, the
    momentum buffers of its SGD optimizer, the [training] flag of the module
    and the operations performed so far. *)
Record worker : Type :=
  Worker { params : list tensor;
           grad : grads;
           momentum_buffer : list (option tensor);
           training : bool;
           log : list op }.

Definition mode_of (w : worker) : mode :=
  if training w then Training else Evaluation.

(** [torch.manual_seed(rank); ...; model = Net(); optimizer = SGD(...)].
    [net_init seed] stands for the parameters [Net()] draws when the
    generator was seeded with [seed] at the start of [run_training]; a fresh
    module is in training mode and nothing in the script changes that. *)
Definition new_worker (net_init : Z -> list tensor) (rank : nat) : worker :=
  let p := net_init (Z.of_nat rank) in
  {| params := p;
     grad := map (fun _ => None) p;
     momentum_buffer := map (fun _ => None) p;
     training := true;
     log := [] |}.

(** The process group at the start of the run: ranks [0 .. size-1]. *)
Definition new_group (net_init : Z -> list tensor) (size : nat) : list worker :=
  map (new_worker net_init) (seq 0 size).

Definition log_ops (o : list op) (w : worker) : worker :=
  {| params := params w; grad := grad w; momentum_buffer := momentum_buffer w;
     training := training w; log := log w ++ o |}.

Definition set_grad (g : grads) (w : worker) : worker :=
  {| params := params w; grad := g; momentum_buffer := momentum_buffer w;
     training := training w; log := log w |}.

(** [optimizer.zero_grad()] *)
Definition zero_grad (w : worker) : worker :=
  log_ops [OpZeroGrad] (set_grad (map (fun _ => None) (grad w)) w).

(** [output = model(data); loss = cross_entropy(output, target)] *)
Definition forward_loss (w : worker) : worker :=
  log_ops [OpForward (mode_of w); OpLoss] w.

(** Autograd adds what it computes to [param.grad]. *)
Definition accumulate (old new : option tensor) : option tensor :=
  match new with
  | None => old
  | Some d => Some (match old with None => d | Some o => tensor_add o d end)
  end.

(** [loss.backward()]; [local] is what autograd computes on this rank. *)
Definition backward (local : grads) (w : worker) : worker :=
  log_ops [OpBackward] (set_grad (zip_with accumulate (grad w) local) w).

Definition lr : Q := 1 # 100.
Definition momentum : Q := 1 # 2.

Definition tensor_scale (c : Q) (t : tensor) : tensor := map (Qmult c) t.
Definition tensor_sub (a b : tensor) : tensor := zip_with Qminus a b.

(** SGD with momentum on one parameter; a parameter without gradient is
    left alone. *)
Definition sgd_param (p : tensor) (g buf : option tensor) : tensor * option tensor :=
  match g with
  | None => (p, buf)
  | Some d =>
      let b := match buf with
               | None => d
               | Some b0 => tensor_add (tensor_scale momentum b0) d
               end in
      (tensor_sub p (tensor_scale lr b), Some b)
  end.

Fixpoint sgd (ps : list tensor) (gs bufs : list (option tensor))
  : list (tensor * option tensor) :=
  match ps, gs, bufs with
  | p :: ps', g :: gs', b :: bufs' => sgd_param p g b :: sgd ps' gs' bufs'
  | _, _, _ => []
  end.

(** [optimizer.step()] *)
Definition optimizer_step (w : worker) : worker :=
  let r := sgd (params w) (grad w) (momentum_buffer w) in
  {| params := map fst r; grad := grad w; momentum_buffer := map snd r;
     training := training w; log := log w ++ [OpOptimizerStep] |}.

(** The body of the loop over [train_loader], run by the whole group;
    [locals !! r] is the gradient autograd computes on rank [r]. *)
Definition train_batch (ws : list worker) (locals : list grads) : result (list worker) :=
  let ws1 := map zero_grad ws in
  let ws2 := map forward_loss ws1 in
  let ws3 := zip_with backward locals ws2 in
  gs <- average_gradients (map grad ws3) ;;
  let ws4 := zip_with (fun g w => log_ops [OpSyncGradients] (set_grad g w)) gs ws3 in
  Ok (map optimizer_step ws4).

Fixpoint train_batches (ws : list worker) (train_loader : list (list grads))
  : result (list worker) :=
  match train_loader with
  | [] => Ok ws
  | locals :: rest => ws' <- train_batch ws locals ;; train_batches ws' rest
  end.

(** The loop over [val_loader] on one worker, then the metric reduction. *)
Definition validation_ops (w : worker) (val_loader : list (list scored)) : list op :=
  flat_map (fun _ => [OpForward (mode_of w); OpLoss]) val_loader ++ [OpMetricSync].

(** One epoch: the training batches, then the validation pass. *)
Definition epoch (ws : list worker) (train_loader : list (list grads))
    (val_loaders : list (list (list scored))) : result (list worker) :=
  ws' <- train_batches ws train_loader ;;
  _ <- validation_sync val_loaders ;;
  Ok (zip_with (fun w vl => log_ops (validation_ops w vl) w) ws' val_loaders).

(** [for _ in range(10)]: [data e] is what the loaders and the model yield
    in epoch [e]. *)
Fixpoint epochs (ws : list worker) (es : list nat)
    (data : nat -> list (list grads) * list (list (list scored))) : result (list worker) :=
  match es with
  | [] => Ok ws
  | e :: es' => ws' <- epoch ws (fst (data e)) (snd (data e)) ;; epochs ws' es' data
  end.

Definition run_training_epochs (ws : list worker)
    (data : nat -> list (list grads) * list (list (list scored))) : result (list worker) :=
  epochs ws (seq 0 10) data.

(** All workers hold the same parameters and optimizer state. *)
Definition consistent (ws : list worker) : Prop :=
  forall r1 r2 w1 w2, ws !! r1 = Some w1 -> ws !! r2 = Some w2 ->
    params w1 = params w2 /\ momentum_buffer w1 = momentum_buffer w2.

(** ** Notions used by the statements *)

(** Parameter [i] has a defined gradient on every worker. *)
Definition defined_at (i : nat) (ws : list grads) : Prop :=
  Forall (fun g : grads => exists t, g !! i = Some (Some t)) ws.

(** Every worker has [n] parameters, each with a defined gradient. *)
Definition all_defined (n : nat) (ws : list grads) : Prop :=
  Forall (fun g : grads => length g = n /\ Forall (fun o => is_Some o) g) ws.

(** The cross-worker mean of the gradient of parameter [i]. *)
Definition mean_grad (ws : list grads) (i : nat) : tensor :=
  tensor_div (tensor_sum (column i ws)) (float (length ws)).

(** Undefined gradients are passed over and stay undefined. *)
Definition skips_undefined (ws : list grads) : Prop :=
  exists ws', average_gradients ws = Ok ws' /\
    Forall2 (fun g g' : grads => forall i, g !! i = Some None -> g' !! i = Some None) ws ws'.

(** ** Concrete inputs *)

(** Two workers, two parameters, every gradient defined. *)
Definition two_workers_grads : list grads :=
  [ [Some [1; 2]; Some [3]] ; [Some [3; 4]; Some [5]] ]%Q.

(** One worker whose first parameter took no part in the forward pass. *)
Definition unused_first_param : list grads :=
  [ [None; Some [1%Q]] ].

(** A validation tensor of six rows and two columns. *)
Definition six_rows : tensor2 :=
  Tensor2 [[0; 0]; [1; 0]; [2; 1]; [3; 1]; [4; 0]; [5; 1]]%Q 2.

(** A validation tensor with the 10000 rows [random_split] sets aside. *)
Definition ten_thousand_rows : tensor2 :=
  Tensor2 (replicate (100 * 100) [0; 0]%Q) 2.

(** Two validation shards of different sizes: one example, classified
    correctly, on rank 0; three examples, all misclassified, on rank 1. *)
Definition uneven_shards : list (list (list scored)) :=
  [ [[Scored 0 true]] ; [[Scored 0 false; Scored 0 false; Scored 0 false]] ]%Q.

(** Two shards of two examples each. *)
Definition even_shards : list (list (list scored)) :=
  [ [[Scored 1 true; Scored 3 false]] ; [[Scored 2 true]; [Scored 4 true]] ]%Q.

(** ** The expected course of a run *)

(** The operations of one training batch, of one validation pass, and of one
    epoch with [num_batches] training batches. *)
Definition train_ops (m : mode) : list op :=
  [OpZeroGrad; OpForward m; OpLoss; OpBackward; OpSyncGradients; OpOptimizerStep].

Definition val_ops (m : mode) (val_loader : list (list scored)) : list op :=
  flat_map (fun _ => [OpForward m; OpLoss]) val_loader ++ [OpMetricSync].

Definition epoch_ops (m : mode) (num_batches : nat) (val_loader : list (list scored))
  : list op :=
  concat (replicate num_batches (train_ops m)) ++ val_ops m val_loader.

(** The gradients all workers hold after synchronizing [locals]. *)
Definition synced (n : nat) (locals : list grads) : grads :=
  map (fun i => Some (mean_grad locals i)) (seq 0 n).

(** A worker after a training batch that left it the gradients [G]. *)
Definition after_batch (G : grads) (w : worker) : worker :=
  {| params := map fst (sgd (params w) G (momentum_buffer w));
     grad := G;
     momentum_buffer := map snd (sgd (params w) G (momentum_buffer w));
     training := training w;
     log := log w ++ train_ops (mode_of w) |}.

Definition after_batches (Gs : list grads) (w : worker) : worker :=
  foldl (fun w' G => after_batch G w') w Gs.

(** Every validation forward pass runs the model in evaluation mode. *)
Definition validates_in_eval_mode (w : worker) (val_loader : list (list scored)) : Prop :=
  forall m, In (OpForward m) (validation_ops w val_loader) -> m = Evaluation.

(** An initializer whose result depends on the seed. *)
Definition seeded_init (seed : Z) : list tensor := [[inject_Z seed]].

(** One epoch's data for a single worker with one parameter: one training
    batch and one validation batch of one example. *)
Definition tiny_data (e : nat) : list (list grads) * list (list (list scored)) :=
  ([ [ [Some [1%Q]] ] ], [ [ [Scored 0 true] ] ]).

(** The operations of worker [r] over the epochs [es]. *)
Definition run_ops (m : mode) (r : nat)
    (data : nat -> list (list grads) * list (list (list scored))) (es : list nat) : list op :=
  concat (map (fun e => epoch_ops m (length (fst (data e))) (nth r (snd (data e)) [])) es).

(** The data of epoch [e] fit a group of [K] workers with [n] parameters:
    every rank gets a defined gradient for every parameter in every training
    batch, and a non-empty validation shard. *)
Definition epoch_data_ok (n K : nat)
    (d : list (list grads) * list (list (list scored))) : Prop :=
  Forall (fun locals => length locals = K /\ all_defined n locals) (fst d) /\
  length (snd d) = K /\
  Forall (fun vl : list (list scored) => concat vl <> []) (snd d).

(** An initializer that ignores the seed. *)
Definition constant_init (seed : Z) : list tensor := [[1%Q]].

(** Two workers with local batches of one and two examples, two features. *)
Definition two_local_batches : list (list tensor) :=
  [ [[1; 2]] ; [[3; 4]; [5; 6]] ]%Q.

(** ** Further notions *)

(** Every worker has a defined gradient for every parameter the loop of
    [average_gradients] visits. *)
Definition gradients_defined (ws : list grads) : Prop :=
  forall r g i, ws !! r = Some g -> i < num_parameters ws ->
    exists t, g !! i = Some (Some t).

(** Two tensors with equal entries, as rationals. *)
Definition tensor_eq (a b : tensor) : Prop := Forall2 Qeq a b.

(** Two workers whose validation loaders yield two batches of one example. *)
Definition uniform_shards : list (list (list scored)) :=
  [ [[Scored 1 true]; [Scored 3 false]] ; [[Scored 2 true]; [Scored 4 true]] ]%Q.

(** What autograd computes on two workers with one parameter of one entry. *)
Definition two_workers_first_batch : list grads :=
  [ [Some [2%Q]] ; [Some [4%Q]] ].

(** One epoch's data for two workers with one parameter. *)
Definition two_workers_data (e : nat) : list (list grads) * list (list (list scored)) :=
  ([two_workers_first_batch], [ [[Scored 0 true]] ; [[Scored 1 false]] ]%Q).

(** ** [convert_dataset_to_tensor] and the rest of the validation set-up *)

(** Exceptions the code above did not need. *)
Inductive py_exception : Type :=
  | Builtin (e : py_error)
  | IndexError
  | ValueError.

Inductive outcome (A : Type) : Type :=
  | Returns (a : A)
  | Throws (e : py_exception).

Arguments Returns {A} a.
Arguments Throws {A} e.

Definition and_then {A B : Type} (o : outcome A) (k : A -> outcome B) : outcome B :=
  match o with
  | Returns a => k a
  | Throws e => Throws e
  end.

Notation "x <~ o ;; k" := (and_then o (fun x => k))
  (at level 100, o at next level, right associativity).

Definition lift {A : Type} (r : result A) : outcome A :=
  match r with
  | Ok a => Returns a
  | Raise e => Throws (Builtin e)
  end.

(** A tensor of any number of dimensions: its shape and its entries in
    row-major order. *)
Record ndarray : Type := NdArray { nd_shape : list nat; nd_data : tensor }.

(** The entries fit the shape. *)
Definition nd_wf (t : ndarray) : Prop :=
  length (nd_data t) = foldr Nat.mul 1 (nd_shape t).

(** [t.shape[0]] *)
Definition shape0 (t : ndarray) : outcome nat :=
  match nd_shape t with
  | [] => Throws IndexError
  | d :: _ => Returns d
  end.

(** Leading dimensions of size one are dropped before an assignment
    broadcasts. *)
Fixpoint strip_ones (s : list nat) : list nat :=
  match s with
  | 1 :: s' => strip_ones s'
  | _ => s
  end.

(** [X[i] = src] for a row [X[i]] of [d] entries: a source of the same shape
    is copied, a source of one entry fills the row, anything else does not
    broadcast. *)
Definition set_row (d : nat) (src : ndarray) : outcome tensor :=
  if decide (nd_shape src = [d]) then Returns (nd_data src)
  else match strip_ones (nd_shape src) with
       | [] => Returns (replicate d (hd 0%Q (nd_data src)))
       | [k] => if decide (k = d) then Returns (nd_data src)
                else Throws (Builtin RuntimeError)
       | _ => Throws (Builtin RuntimeError)
       end.

(** [for i in range(len(dataset)): X[i], y[i] = dataset[i]] *)
Fixpoint fill_rows (d : nat) (dataset : list (ndarray * Z)) : outcome (list tensor * tensor) :=
  match dataset with
  | [] => Returns ([], [])
  | (x, label) :: rest =>
      row <~ set_row d x ;;
      r <~ fill_rows d rest ;;
      Returns (row :: fst r, inject_Z label :: snd r)
  end.

Definition convert_dataset_to_tensor (dataset : list (ndarray * Z))
  : outcome (tensor2 * tensor) :=
  match dataset with
  | [] => Throws IndexError
  | (x0, _) :: _ =>
      d <~ shape0 x0 ;;
      r <~ fill_rows d dataset ;;
      Returns (Tensor2 (fst r) d, snd r)
  end.

(** [torch.hstack((X, y))] for a two-dimensional [X] and a one-dimensional
    [y]: the tensors are concatenated along dimension 1, which asks for
    tensors of the same number of dimensions; only an empty one-dimensional
    tensor is passed over. *)
Definition torch_hstack (X : tensor2) (y : tensor) : result tensor2 :=
  match y with
  | [] => Ok X
  | _ => Raise RuntimeError
  end.

(** The [rank == 0] branch of [run_training], from the validation dataset
    on. *)
Definition val_branch_rank0 (process_count : nat) (val_dataset : list (ndarray * Z))
  : outcome (shape * list tensor2) :=
  Xy <~ convert_dataset_to_tensor val_dataset ;;
  val_tensor <~ lift (torch_hstack (fst Xy) (snd Xy)) ;;
  lift (val_setup_rank0 process_count val_tensor).

(** ** The shapes [Net.forward] produces *)

Local Set Warnings "-abstract-large-number".

(** [nn.Conv2d(in_c, out_c, k, 1)] on a batched or unbatched input. *)
Definition conv2d_shape (in_c out_c k : nat) (s : shape) : result shape :=
  match s with
  | [b; c; h; w] =>
      if Nat.eqb c in_c && Nat.leb k h && Nat.leb k w
      then Ok [b; out_c; h - k + 1; w - k + 1] else Raise RuntimeError
  | [c; h; w] =>
      if Nat.eqb c in_c && Nat.leb k h && Nat.leb k w
      then Ok [out_c; h - k + 1; w - k + 1] else Raise RuntimeError
  | _ => Raise RuntimeError
  end.

(** [F.max_pool2d(x, k)]: the stride is the kernel size. *)
Definition max_pool2d_shape (k : nat) (s : shape) : result shape :=
  match s with
  | [b; c; h; w] =>
      if Nat.leb k h && Nat.leb k w then Ok [b; c; h / k; w / k] else Raise RuntimeError
  | [c; h; w] =>
      if Nat.leb k h && Nat.leb k w then Ok [c; h / k; w / k] else Raise RuntimeError
  | _ => Raise RuntimeError
  end.

(** [torch.flatten(x, 1)] *)
Definition flatten1_shape (s : shape) : outcome shape :=
  match s with
  | d0 :: d1 :: rest => Returns [d0; foldr Nat.mul 1 (d1 :: rest)]
  | _ => Throws IndexError
  end.

(** [nn.Linear(in_f, out_f)]: acts on the last dimension. *)
Fixpoint linear_shape (in_f out_f : nat) (s : shape) : result shape :=
  match s with
  | [] => Raise RuntimeError
  | [l] => if Nat.eqb l in_f then Ok [out_f] else Raise RuntimeError
  | d :: s' => s'' <- linear_shape in_f out_f s' ;; Ok (d :: s'')
  end.

(** [Net.forward] on shapes; [relu] and the dropouts keep the shape. [bn1]
    stands for what [SyncBatchNorm(128)] does to a shape. *)
Definition Net_forward_shape (bn1 : shape -> result shape) (x : shape) : outcome shape :=
  x <~ lift (conv2d_shape 3 32 3 x) ;;
  x <~ lift (conv2d_shape 32 32 3 x) ;;
  x <~ lift (max_pool2d_shape 2 x) ;;
  x <~ flatten1_shape x ;;
  x <~ lift (linear_shape 6272 128 x) ;;
  x <~ lift (bn1 x) ;;
  lift (linear_shape 128 100 x).

(** A data set of two examples with three features each. *)
Definition flat_dataset : list (ndarray * Z) :=
  [ (NdArray [3] [1; 2; 3]%Q, 7%Z) ; (NdArray [3] [4; 5; 6]%Q, 9%Z) ].

(** A data set of one image of two channels, one row and two columns. *)
Definition image_dataset : list (ndarray * Z) :=
  [ (NdArray [2; 1; 2] [1; 2; 3; 4]%Q, 7%Z) ].

(** The synchronized gradients of all training batches of the epochs [es],
    in the order the run meets them. *)
Definition run_gradients (n : nat)
    (data : nat -> list (list grads) * list (list (list scored))) (es : list nat)
  : list grads :=
  concat (map (fun e => map (synced n) (fst (data e))) es).

(** * Properties *)

(** ** The result monad *)

Lemma mapM_Forall2 {A B : Type} (f : A -> result B) (l : list A) (k : list B) :
  Forall2 (fun a b => f a = Ok b) l k -> mapM f l = Ok k.
Proof.
  induction 1 as [|a b l k Hab _ IH]; simpl; [reflexivity|].
  rewrite Hab; simpl. rewrite IH. reflexivity.
Qed.

Lemma mapM_Ok_Forall2 {A B : Type} (f : A -> result B) (l : list A) (k : list B) :
  mapM f l = Ok k -> Forall2 (fun a b => f a = Ok b) l k.
Proof.
  revert k. induction l as [|a l IH]; simpl; intros k H.
  - inversion H. constructor.
  - destruct (f a) as [b|e] eqn:Hfa; simpl in H; [|discriminate].
    destruct (mapM f l) as [bs|e] eqn:Hl; simpl in H; [|discriminate].
    inversion H; subst. constructor; auto.
Qed.

Lemma mapM_Raise {A B : Type} (f : A -> result B) (l : list A) (a : A) (e : py_error) :
  In a l -> f a = Raise e -> (forall x e', f x = Raise e' -> e' = e) ->
  mapM f l = Raise e.
Proof.
  intros Hin Hfa Huniq. induction l as [|x l IH]; simpl; [destruct Hin|].
  destruct (f x) as [b|e'] eqn:Hfx; simpl.
  - destruct Hin as [->|Hin]; [congruence|].
    rewrite (IH Hin). reflexivity.
  - f_equal. eauto.
Qed.

(** ** [average_gradients] *)

Lemma zip_with_all_reduce {A : Type} (f : A -> tensor -> A) (l : list A) (ts : list tensor) :
  length ts = length l ->
  zip_with f l (all_reduce_sum ts) = map (fun a => f a (tensor_sum ts)) l.
Proof.
  unfold all_reduce_sum. generalize (tensor_sum ts) as s. intros s.
  revert ts. induction l as [|a l IH]; intros [|t ts] H; simpl in *; try discriminate;
    [reflexivity|]. f_equal. apply IH. lia.
Qed.

Lemma grad_data_Ok (i : nat) (g : grads) (t : tensor) :
  grad_data i g = Ok t <-> g !! i = Some (Some t).
Proof.
  unfold grad_data. destruct (g !! i) as [[t'|]|]; split; intros H;
    try discriminate; congruence.
Qed.

Lemma column_defined (i : nat) (ws : list grads) :
  defined_at i ws -> Forall2 (fun g t => grad_data i g = Ok t) ws (column i ws).
Proof.
  unfold defined_at. induction 1 as [|g ws [t Ht] _ IH]; simpl; [constructor|].
  rewrite Ht; simpl. constructor; [|exact IH].
  apply grad_data_Ok. exact Ht.
Qed.

Lemma column_length (i : nat) (ws : list grads) :
  defined_at i ws -> length (column i ws) = length ws.
Proof.
  intros H. symmetry. eapply Forall2_length. apply column_defined. exact H.
Qed.

Lemma sync_param_defined (size : Q) (ws : list grads) (i : nat) :
  defined_at i ws ->
  sync_param size ws i
  = Ok (map (fun g => <[i := Some (tensor_div (tensor_sum (column i ws)) size)]> g) ws).
Proof.
  intros H. unfold sync_param.
  rewrite (mapM_Forall2 _ _ _ (column_defined i ws H)). simpl.
  rewrite zip_with_all_reduce by (apply column_length; exact H). reflexivity.
Qed.

Lemma all_defined_at (n i : nat) (ws : list grads) :
  all_defined n ws -> i < n -> defined_at i ws.
Proof.
  unfold all_defined, defined_at. intros H Hi.
  eapply Forall_impl; [exact H|]. intros g [Hlen Hg]. simpl.
  destruct (lookup_lt_is_Some_2 g i) as [o Ho]; [lia|].
  assert (Hs : is_Some o) by (eapply Forall_lookup_1; eauto).
  destruct Hs as [t ->]. eauto.
Qed.

Lemma lookup_prefix_drop (k : nat) (pre g : grads) :
  length pre = k -> (pre ++ drop k g) !! k = g !! k.
Proof.
  intros H. rewrite lookup_app_r by lia. rewrite H, Nat.sub_diag.
  rewrite lookup_drop, Nat.add_0_r. reflexivity.
Qed.

Lemma column_prefix (k : nat) (pre : grads) (ws : list grads) :
  length pre = k -> column k (map (fun g : grads => pre ++ drop k g) ws) = column k ws.
Proof.
  intros H. induction ws as [|g ws IH]; simpl; [reflexivity|].
  rewrite (lookup_prefix_drop k pre g H). rewrite IH. reflexivity.
Qed.

Lemma insert_prefix_drop (k : nat) (pre g : grads) (v : option tensor) :
  length pre = k -> k < length g ->
  <[k := v]> (pre ++ drop k g) = (pre ++ [v]) ++ drop (S k) g.
Proof.
  intros H Hk. rewrite insert_app_r_alt by lia. rewrite H, Nat.sub_diag.
  rewrite <- app_assoc. f_equal.
  destruct (drop k g) as [|x rest] eqn:E.
  - apply (f_equal length) in E. rewrite length_drop in E. simpl in E. lia.
  - simpl. f_equal.
    assert (E' : drop 1 (drop k g) = rest) by (rewrite E; reflexivity).
    rewrite drop_drop in E'. rewrite <- E'. f_equal. lia.
Qed.

(** The state of the loop after the parameters below [k] are done. *)
Lemma average_gradients_prefix (n k : nat) (size : Q) (ws : list grads) :
  all_defined n ws -> k <= n ->
  foldl (fun acc i => ws' <- acc ;; sync_param size ws' i) (Ok ws) (seq 0 k)
  = Ok (map (fun g : grads =>
               map (fun i => Some (tensor_div (tensor_sum (column i ws)) size)) (seq 0 k)
               ++ drop k g) ws).
Proof.
  intros Hdef. induction k as [|k IH]; intros Hk.
  - simpl. f_equal. rewrite <- (map_id ws) at 1. apply map_ext. intros g.
    rewrite drop_0. reflexivity.
  - rewrite seq_S, foldl_app. simpl. rewrite IH by lia. simpl.
    assert (Hat : defined_at k ws) by (eapply all_defined_at; eauto; lia).
    set (pre := map (fun i => Some (tensor_div (tensor_sum (column i ws)) size)) (seq 0 k)).
    assert (Hpre : length pre = k) by (unfold pre; rewrite length_map, length_seq; reflexivity).
    assert (Hat' : defined_at k (map (fun g : grads => pre ++ drop k g) ws)).
    { unfold defined_at in *. apply Forall_map. eapply Forall_impl; [exact Hat|].
      intros g [t Ht]. simpl. exists t. rewrite lookup_prefix_drop by exact Hpre. exact Ht. }
    rewrite (sync_param_defined _ _ _ Hat'). f_equal.
    rewrite column_prefix by exact Hpre. rewrite map_map.
    apply map_ext_Forall. eapply Forall_impl; [exact Hdef|].
    intros g [Hlen _]. simpl.
    rewrite insert_prefix_drop by (try exact Hpre; lia).
    unfold pre. rewrite map_app. reflexivity.
Qed.

Lemma average_gradients_all_defined (n : nat) (ws : list grads) :
  all_defined n ws ->
  average_gradients ws
  = Ok (map (fun _ => map (fun i => Some (mean_grad ws i)) (seq 0 n)) ws).
Proof.
  intros Hdef. unfold average_gradients.
  assert (Hn : ws <> [] -> num_parameters ws = n).
  { destruct ws as [|g ws]; [congruence|]. intros _. inversion Hdef; subst. simpl. tauto. }
  destruct ws as [|g ws]; [reflexivity|].
  rewrite Hn by discriminate.
  rewrite (average_gradients_prefix n n) by (auto; lia).
  f_equal. apply map_ext_Forall. eapply Forall_impl; [exact Hdef|].
  intros g' [Hlen _]. simpl. rewrite drop_ge by lia. rewrite app_nil_r. reflexivity.
Qed.

(** [tensor_sum] adds entry by entry. *)
Lemma foldl_tensor_add_lookup (ts : list tensor) (t : tensor) (j : nat) (x : Q) :
  t !! j = Some x ->
  Forall (fun t' : tensor => is_Some (t' !! j)) ts ->
  foldl tensor_add t ts !! j
  = Some (foldl Qplus x (map (fun t' : tensor => nth j t' 0%Q) ts)).
Proof.
  intros Ht H. revert t x Ht. induction H as [|t' ts [y Hy] _ IH]; intros t x Ht.
  - exact Ht.
  - cbn [foldl map]. apply IH. unfold tensor_add.
    rewrite lookup_zip_with, Ht, Hy. cbn.
    rewrite (nth_lookup_Some _ _ _ _ Hy). reflexivity.
Qed.

Lemma tensor_sum_elementwise (t : tensor) (ts : list tensor) (j : nat) (x : Q) :
  t !! j = Some x ->
  Forall (fun t' : tensor => is_Some (t' !! j)) ts ->
  tensor_sum (t :: ts) !! j
  = Some (foldl Qplus x (map (fun t' : tensor => nth j t' 0%Q) ts)).
Proof. apply foldl_tensor_add_lookup. Qed.

Lemma all_defined_column (n i : nat) (ws : list grads) :
  all_defined n ws -> i < n ->
  Forall2 (fun (g : grads) t => g !! i = Some (Some t)) ws (column i ws).
Proof.
  intros H Hi. eapply Forall2_impl.
  - apply column_defined. eapply all_defined_at; eauto.
  - intros g t Hgt. apply grad_data_Ok. exact Hgt.
Qed.

(** The result of [average_gradients] in terms of [tensor_sum] and
    [tensor_div], when every gradient is defined. *)
Theorem average_gradients_mean (n : nat) (ws : list grads) :
  all_defined n ws ->
  exists ws', average_gradients ws = Ok ws' /\ length ws' = length ws /\
    (forall r g, ws' !! r = Some g ->
       length g = n /\
       forall i, i < n ->
         g !! i = Some (Some (tensor_div (tensor_sum (column i ws)) (float (length ws)))) /\
         Forall2 (fun (g0 : grads) t => g0 !! i = Some (Some t)) ws (column i ws)) /\
    (forall r1 r2 g1 g2, ws' !! r1 = Some g1 -> ws' !! r2 = Some g2 -> g1 = g2).
Proof.
  intros Hdef. eexists. split; [apply (average_gradients_all_defined n ws Hdef)|].
  split; [apply length_map|]. split.
  - intros r g Hr. apply list_lookup_fmap_Some in Hr as (g0 & -> & _).
    split; [rewrite length_map, length_seq; reflexivity|].
    intros i Hi. split; [|eapply all_defined_column; eauto].
    rewrite list_lookup_fmap, lookup_seq_lt by exact Hi. reflexivity.
  - intros r1 r2 g1 g2 H1 H2.
    apply list_lookup_fmap_Some in H1 as (? & -> & _).
    apply list_lookup_fmap_Some in H2 as (? & -> & _). reflexivity.
Qed.

Lemma average_gradients_mean_witness :
  all_defined 2 two_workers_grads /\
  exists ws', average_gradients two_workers_grads = Ok ws' /\ length ws' = 2 /\
    forall r g, ws' !! r = Some g ->
      g !! 0 = Some (Some (tensor_div (tensor_sum [[1; 2]; [3; 4]]%Q) (float 2))) /\
      g !! 1 = Some (Some (tensor_div (tensor_sum [[3]; [5]]%Q) (float 2))).
Proof.
  assert (H : all_defined 2 two_workers_grads).
  { unfold all_defined, two_workers_grads.
    repeat constructor; eexists; reflexivity. }
  split; [exact H|].
  destruct (average_gradients_mean 2 two_workers_grads H) as (ws' & Hok & Hlen & Hmean & _).
  exists ws'. split; [exact Hok|]. split; [exact Hlen|].
  intros r g Hr. destruct (Hmean r g Hr) as [_ Hg]. split.
  - apply (Hg 0). lia.
  - apply (Hg 1). lia.
Defined.

Example average_gradients_two_workers :
  average_gradients two_workers_grads
  = Ok [ [Some [4 # 2; 6 # 2]; Some [8 # 2]] ; [Some [4 # 2; 6 # 2]; Some [8 # 2]] ]%Q.
Proof. reflexivity. Qed.

Lemma fold_sync_Raise (size : Q) (e : py_error) (l : list nat) :
  foldl (fun acc i => ws' <- acc ;; sync_param size ws' i) (Raise e) l = Raise e.
Proof. induction l as [|i l IH]; simpl; [reflexivity | exact IH]. Qed.

Lemma grad_data_error (i : nat) (g : grads) (e : py_error) :
  grad_data i g = Raise e -> e = AttributeError.
Proof.
  unfold grad_data. destruct (g !! i) as [[t|]|]; intros H; congruence.
Qed.

(** An iteration either raises [AttributeError] or rewrites slot [i] only. *)
Lemma sync_param_cases (size : Q) (ws : list grads) (i : nat) :
  sync_param size ws i = Raise AttributeError \/
  exists ws', sync_param size ws i = Ok ws' /\
    Forall2 (fun g g' : grads => forall j, j <> i -> g' !! j = g !! j) ws ws'.
Proof.
  unfold sync_param. destruct (mapM (grad_data i) ws) as [ts|e] eqn:Hm; simpl.
  - right. eexists. split; [reflexivity|].
    apply mapM_Ok_Forall2, Forall2_length in Hm.
    rewrite zip_with_all_reduce by lia.
    generalize (tensor_sum ts). intros s. clear Hm.
    induction ws as [|g ws IH]; simpl; constructor; [|exact IH].
    intros j Hj. apply list_lookup_insert_ne. congruence.
  - left. f_equal. clear -Hm. revert Hm. induction ws as [|g ws IH]; simpl; [discriminate|].
    destruct (grad_data i g) as [t|e'] eqn:Hg; simpl.
    + destruct (mapM (grad_data i) ws) as [ts|e'']; simpl; [discriminate|].
      intros H. apply IH. exact H.
    + intros H. inversion H; subst. eapply grad_data_error; eauto.
Qed.

Lemma average_gradients_loop_cases (size : Q) (ws : list grads) (k : nat) :
  foldl (fun acc i => ws' <- acc ;; sync_param size ws' i) (Ok ws) (seq 0 k)
    = Raise AttributeError \/
  exists ws', foldl (fun acc i => ws' <- acc ;; sync_param size ws' i) (Ok ws) (seq 0 k)
                = Ok ws' /\
    Forall2 (fun g g' : grads => forall j, k <= j -> g' !! j = g !! j) ws ws'.
Proof.
  induction k as [|k IH].
  - right. exists ws. split; [reflexivity|].
    apply Forall2_same_length_lookup_2; [reflexivity|]. intros r g g' H1 H2 j _. congruence.
  - rewrite seq_S, foldl_app. simpl. destruct IH as [-> | (ws' & -> & Hinv)]; [left; reflexivity|].
    simpl. destruct (sync_param_cases size ws' k) as [-> | (ws'' & -> & Hstep)]; [left; reflexivity|].
    right. exists ws''. split; [reflexivity|].
    apply Forall2_same_length_lookup_2.
    + apply Forall2_length in Hinv, Hstep. lia.
    + intros r g g'' H1 H2 j Hj.
      destruct (Forall2_lookup_l _ _ _ _ _ Hinv H1) as (g' & Hg' & Hgg').
      destruct (Forall2_lookup_l _ _ _ _ _ Hstep Hg') as (g2 & Hg2 & Hg'g2).
      assert (g2 = g'') by congruence. subst g2.
      rewrite Hg'g2 by lia. apply Hgg'. lia.
Qed.

(** C7 (as the code has it): a parameter whose gradient is undefined on some
    worker is neither skipped nor zero-filled: [average_gradients] reads
    [param.grad.data] of every parameter and fails with [AttributeError]. *)
Theorem average_gradients_undefined (ws : list grads) (r i : nat) (g : grads) :
  ws !! r = Some g -> g !! i = Some None -> i < num_parameters ws ->
  average_gradients ws = Raise AttributeError.
Proof.
  intros Hr Hi Hn. unfold average_gradients.
  set (size := float (length ws)).
  replace (num_parameters ws) with (i + S (num_parameters ws - S i)) by lia.
  rewrite seq_app, foldl_app. simpl.
  destruct (average_gradients_loop_cases size ws i) as [-> | (ws' & -> & Hinv)].
  - simpl. apply fold_sync_Raise.
  - simpl. destruct (Forall2_lookup_l _ _ _ _ _ Hinv Hr) as (g' & Hg' & Hgg').
    assert (Hraise : sync_param size ws' i = Raise AttributeError).
    { unfold sync_param. rewrite (mapM_Raise (grad_data i) ws' g' AttributeError).
      - reflexivity.
      - apply list_elem_of_In. eapply list_elem_of_lookup_2. exact Hg'.
      - unfold grad_data. rewrite Hgg' by lia. rewrite Hi. reflexivity.
      - intros x e' He. eapply grad_data_error. exact He. }
    rewrite Hraise. apply fold_sync_Raise.
Qed.

Lemma average_gradients_undefined_witness :
  unused_first_param !! 0 = Some [None; Some [1%Q]] /\
  average_gradients unused_first_param = Raise AttributeError.
Proof.
  split; [reflexivity|].
  apply (average_gradients_undefined unused_first_param 0 0 [None; Some [1%Q]]).
  - reflexivity.
  - reflexivity.
  - simpl. lia.
Defined.

Example average_gradients_unused_first_param :
  average_gradients unused_first_param = Raise AttributeError.
Proof. reflexivity. Qed.

(** C7, as stated, fails on a model whose first parameter has no gradient. *)
Lemma skips_undefined_counterexample : ~ skips_undefined unused_first_param.
Proof.
  intros (ws' & H & _). vm_compute in H. discriminate H.
Qed.

(** ** The validation scatter set-up *)

Lemma num_splits_covers (m n : nat) : 1 <= n -> m <= num_splits m n * n.
Proof.
  intros Hn. unfold num_splits.
  assert (H : m <= ((m + n - 1) / n) * n).
  { pose proof (Nat.div_mod (m + n - 1) n ltac:(lia)) as Hd.
    pose proof (Nat.mod_upper_bound (m + n - 1) n ltac:(lia)) as Hm. nia. }
  nia.
Qed.

Lemma num_splits_large (m n : nat) : 1 <= n -> n * n < m -> n < num_splits m n.
Proof.
  intros Hn Hm. pose proof (num_splits_covers m n Hn) as H.
  destruct (Nat.lt_ge_cases n (num_splits m n)) as [Hlt|Hge]; [exact Hlt|]. nia.
Qed.

Lemma chunks_concat {A : Type} (l : list A) (n k : nat) :
  concat (map (fun i => take n (drop (i * n) l)) (seq 0 k)) = take (k * n) l.
Proof.
  induction k as [|k IH]; [reflexivity|].
  rewrite seq_S, map_app, concat_app, IH. simpl. rewrite app_nil_r.
  rewrite take_take_drop. f_equal. lia.
Qed.

Lemma torch_split_Ok (t : tensor2) (n : nat) :
  1 <= n ->
  torch_split t n
  = Ok (map (fun i => Tensor2 (take n (drop (i * n) (rows t))) (cols t))
            (seq 0 (num_splits (length (rows t)) n))).
Proof.
  intros Hn. unfold torch_split.
  destruct (Nat.eqb_spec n 0) as [->|_]; [lia|]. reflexivity.
Qed.

(** The chunks of [torch.split], put back together, are the tensor. *)
Lemma torch_split_partition (t : tensor2) (n : nat) (chunks : list tensor2) :
  1 <= n -> torch_split t n = Ok chunks -> concat (map rows chunks) = rows t.
Proof.
  intros Hn. rewrite torch_split_Ok by exact Hn. intros H. inversion H; subst; clear H.
  rewrite map_map. simpl. rewrite chunks_concat.
  apply take_ge. apply num_splits_covers. exact Hn.
Qed.

Example torch_split_six_rows :
  torch_split six_rows 2
  = Ok [ Tensor2 [[0; 0]; [1; 0]] 2 ; Tensor2 [[2; 1]; [3; 1]] 2 ;
         Tensor2 [[4; 0]; [5; 1]] 2 ]%Q.
Proof. reflexivity. Qed.

(** C10: for every world size [N >= 1] the set-up cannot run as written.
    On rank 0 the first dimension of the receive buffer is the float
    [shape[0] / N], which [torch.zeros] rejects, so the branch raises;
    [torch.split] is given [N] as the chunk size, so it returns
    [num_splits M N] chunks of at most [N] rows (exactly [N] for each of the
    first [M / N] and more than [N] chunks once [M > N * N]); every other
    rank's buffer has shape [(10,)], which is the shape of no chunk. *)
Theorem val_setup_not_executable (N : nat) (val_tensor : tensor2) :
  1 <= N ->
  let M := length (rows val_tensor) in
  let d := PyFloat (Qdiv (inject_Z (Z.of_nat M)) (inject_Z (Z.of_nat N))) in
  py_truediv (PyInt (Z.of_nat M)) (PyInt (Z.of_nat N)) = Ok d /\
  torch_zeros [d; PyInt (Z.of_nat (cols val_tensor))] = Raise TypeError /\
  val_setup_rank0 N val_tensor = Raise TypeError /\
  (exists chunks, torch_split val_tensor N = Ok chunks /\
     length chunks = num_splits M N /\
     Forall (fun c => length (rows c) <= N /\ cols c = cols val_tensor) chunks /\
     (forall i c, i < M / N -> chunks !! i = Some c -> length (rows c) = N) /\
     (N * N < M -> N < length chunks)) /\
  val_buffer_other_rank = Ok [10] /\
  (forall c : tensor2, shape_of c <> [10]).
Proof.
  intros HN M d.
  assert (Hdiv : py_truediv (PyInt (Z.of_nat M)) (PyInt (Z.of_nat N)) = Ok d).
  { unfold py_truediv. simpl. destruct (Z.eqb_spec (Z.of_nat N) 0) as [E|_]; [lia|]. reflexivity. }
  split; [exact Hdiv|]. split; [reflexivity|]. split.
  - unfold val_setup_rank0. rewrite torch_split_Ok by exact HN. simpl.
    fold M. rewrite Hdiv. reflexivity.
  - split; [|split; [reflexivity | intros c Hc; discriminate Hc]].
    eexists. split; [apply torch_split_Ok; exact HN|]. fold M.
    split; [rewrite length_map, length_seq; reflexivity|]. split; [|split].
    + apply Forall_map. apply Forall_forall. intros i _. simpl. split; [|reflexivity].
      rewrite length_take. lia.
    + intros i c Hi Hc. apply list_lookup_fmap_Some in Hc as (j & -> & Hj).
      apply lookup_seq in Hj as [-> _]. simpl.
      rewrite length_take, length_drop. fold M.
      pose proof (Nat.div_mod M N ltac:(lia)) as Hd.
      assert (S i <= M / N) by lia. nia.
    + intros Hbig. rewrite length_map, length_seq. apply num_splits_large; assumption.
Qed.

Lemma val_setup_not_executable_witness :
  1 <= 2 /\ val_setup_rank0 2 six_rows = Raise TypeError.
Proof.
  split; [lia|].
  apply (val_setup_not_executable 2 six_rows). lia.
Defined.

(** C4 with two workers: [torch.split(val_tensor, 2)] cuts six rows into
    three shards of two rows, where two shards of three rows are claimed, and
    the 10000 validation rows into 5000 shards of at most two rows: there is
    not one shard per worker. *)
Lemma val_split_two_workers :
  (exists chunks, torch_split six_rows 2 = Ok chunks /\
     map (fun c => length (rows c)) chunks = [2; 2; 2] /\
     length chunks <> 2) /\
  (exists chunks, torch_split ten_thousand_rows 2 = Ok chunks /\
     length chunks = 50 * 100 /\
     Forall (fun c => length (rows c) <= 2) chunks).
Proof.
  split.
  - eexists. split; [reflexivity|]. split; [reflexivity|]. simpl; lia.
  - eexists. split; [apply torch_split_Ok; lia|]. split.
    + rewrite length_map, length_seq. vm_compute. reflexivity.
    + apply Forall_map. apply Forall_forall. intros i _. simpl.
      rewrite length_take. lia.
Qed.

(** ** The validation loop and the metric reduction *)

Lemma float_add (a b : nat) : Qeq (float (a + b)) (Qplus (float a) (float b)).
Proof. unfold float. rewrite Nat2Z.inj_add, inject_Z_plus. reflexivity. Qed.

Lemma float_nonzero (n : nat) : n <> 0 -> ~ Qeq (float n) 0.
Proof.
  intros Hn H. unfold float, Qeq in H. simpl in H. lia.
Qed.

Lemma correct_count_app (a b : list scored) :
  correct_count (a ++ b) = correct_count a + correct_count b.
Proof. unfold correct_count. rewrite List.filter_app, length_app. reflexivity. Qed.

(** The accumulators after the loop over the batches. *)
Lemma val_loop (st : val_acc_state) (val_loader : list (list scored)) :
  let st' := foldl val_step st val_loader in
  elements_count st' = elements_count st + length (concat val_loader) /\
  Qeq (val_acc st') (Qplus (val_acc st) (float (correct_count (concat val_loader)))) /\
  Qeq (val_loss st') (Qplus (val_loss st) (qsum (map cross_entropy val_loader))).
Proof.
  revert st. induction val_loader as [|b l IH]; intros st; cbn [foldl concat map].
  - cbn zeta. split; [simpl; lia|]. split.
    + change (float (correct_count [])) with (inject_Z 0). ring.
    + change (qsum []) with (inject_Z 0). ring.
  - destruct (IH (val_step st b)) as (Hc & Ha & Hl). cbn zeta. split; [|split].
    + rewrite Hc. cbn [val_step elements_count]. rewrite length_app. lia.
    + rewrite Ha. cbn [val_step val_acc]. unfold correct_sum.
      rewrite correct_count_app, float_add. ring.
    + rewrite Hl. cbn [val_step val_loss].
      change (qsum (cross_entropy b :: map cross_entropy l))
        with (Qplus (cross_entropy b) (qsum (map cross_entropy l))). ring.
Qed.

Lemma validate_Ok (val_loader : list (list scored)) :
  concat val_loader <> [] ->
  exists l a, validate val_loader = Ok [l; a] /\
    Qeq l (qsum (map cross_entropy val_loader)) /\
    Qeq a (Qdiv (float (correct_count (concat val_loader)))
                (float (length (concat val_loader)))).
Proof.
  intros Hne. unfold validate.
  destruct (val_loop (ValAcc 0%Q 0%Q 0) val_loader) as (Hc & Ha & Hl).
  cbn [elements_count val_acc val_loss] in Hc, Ha, Hl. cbn zeta in *.
  assert (Hlen : length (concat val_loader) <> 0) by (destruct (concat val_loader); simpl; congruence).
  destruct (Nat.eqb_spec (elements_count (foldl val_step (ValAcc 0%Q 0%Q 0) val_loader)) 0) as [E|_];
    [lia|].
  eexists _, _. split; [reflexivity|]. split.
  - rewrite Hl. ring.
  - rewrite Hc, Ha. rewrite Qplus_0_l. reflexivity.
Qed.

Lemma qsum_cons (x : Q) (l : list Q) : qsum (x :: l) = Qplus x (qsum l).
Proof. reflexivity. Qed.

(** Reduce-summing two-element tensors sums each entry. *)
Lemma foldl_tensor_add_pairs (ts : list tensor) (l a : Q) :
  Forall (fun t : tensor => exists l' a', t = [l'; a']) ts ->
  exists L A, foldl tensor_add [l; a] ts = [L; A] /\
    Qeq L (Qplus l (qsum (map (fun t : tensor => nth 0 t 0%Q) ts))) /\
    Qeq A (Qplus a (qsum (map (fun t : tensor => nth 1 t 0%Q) ts))).
Proof.
  intros H. revert l a. induction H as [|t ts (l' & a' & ->) _ IH]; intros l a.
  - exists l, a. split; [reflexivity|]. cbn [map]. change (qsum []) with (inject_Z 0).
    split; ring.
  - cbn [foldl]. change (tensor_add [l; a] [l'; a']) with [Qplus l l'; Qplus a a'].
    destruct (IH (Qplus l l') (Qplus a a')) as (L & A & -> & HL & HA).
    exists L, A. split; [reflexivity|]. cbn [map nth]. rewrite !qsum_cons.
    split; [rewrite HL | rewrite HA]; ring.
Qed.

Lemma tensor_sum_pairs (ts : list tensor) :
  ts <> [] ->
  Forall (fun t : tensor => exists l' a', t = [l'; a']) ts ->
  exists L A, tensor_sum ts = [L; A] /\
    Qeq L (qsum (map (fun t : tensor => nth 0 t 0%Q) ts)) /\
    Qeq A (qsum (map (fun t : tensor => nth 1 t 0%Q) ts)).
Proof.
  intros Hne H. destruct ts as [|t ts]; [congruence|].
  inversion H as [|? ? (l & a & ->) Hts]; subst.
  destruct (foldl_tensor_add_pairs ts l a Hts) as (L & A & HE & HL & HA).
  exists L, A. split; [exact HE|]. cbn [map nth]. rewrite !qsum_cons. split; assumption.
Qed.

(** What every worker contributes to the reduction. *)
Lemma validate_all (val_loaders : list (list (list scored))) :
  Forall (fun vl => concat vl <> []) val_loaders ->
  exists locals, mapM validate val_loaders = Ok locals /\
    length locals = length val_loaders /\
    Forall (fun t : tensor => exists l' a', t = [l'; a']) locals /\
    Qeq (qsum (map (fun t : tensor => nth 0 t 0%Q) locals))
        (qsum (map (fun vl => qsum (map cross_entropy vl)) val_loaders)) /\
    Qeq (qsum (map (fun t : tensor => nth 1 t 0%Q) locals))
        (qsum (map (fun vl => accuracy (concat vl)) val_loaders)).
Proof.
  induction 1 as [|vl vls Hvl _ (locals & Hm & Hlen & Hp & HL & HA)].
  - exists []. repeat split; try reflexivity. constructor.
  - destruct (validate_Ok vl Hvl) as (l & a & Hv & Hl & Ha).
    exists ([l; a] :: locals). cbn [mapM]. rewrite Hv, Hm. split; [reflexivity|].
    split; [simpl; lia|]. split; [constructor; eauto|].
    cbn [map nth]. rewrite !qsum_cons. unfold accuracy at 1.
    split; [rewrite Hl, HL | rewrite Ha, HA]; reflexivity.
Qed.

Lemma accuracy_equal_shards (n : nat) (val_loaders : list (list (list scored))) :
  n <> 0 ->
  Forall (fun vl => length (concat vl) = n) val_loaders ->
  length (all_examples val_loaders) = length val_loaders * n /\
  Qeq (qsum (map (fun vl => accuracy (concat vl)) val_loaders))
      (Qdiv (float (correct_count (all_examples val_loaders))) (float n)).
Proof.
  intros Hn. unfold all_examples.
  induction 1 as [|vl vls Hvl _ [IHlen IHacc]]; cbn [concat map length];
    try rewrite concat_app.
  - split; [reflexivity|]. change (qsum []) with (inject_Z 0).
    change (float (correct_count [])) with (inject_Z 0).
    field. apply float_nonzero. exact Hn.
  - split; [rewrite length_app, IHlen, Hvl; lia|].
    rewrite qsum_cons, IHacc, correct_count_app, float_add. unfold accuracy. rewrite Hvl.
    field. apply float_nonzero. exact Hn.
Qed.

Lemma float_mul (a b : nat) : Qeq (float (a * b)) (Qmult (float a) (float b)).
Proof. unfold float. rewrite Nat2Z.inj_mul, inject_Z_mult. reflexivity. Qed.

(** C5 (as the code has it): the workers reduce-sum the pair (sum of the
    batch losses, local accuracy) and divide by the world size. The accuracy
    entry is the unweighted mean of the workers' accuracies; when all shards
    hold the same non-zero number of examples it is the accuracy over the
    concatenation of the shards, and rank 0 reports it unchanged. *)
Theorem validation_equal_shards (num_batches n : nat)
    (val_loaders : list (list (list scored))) :
  val_loaders <> [] -> 0 < n ->
  Forall (fun vl => length (concat vl) = n) val_loaders ->
  exists L A,
    validation_sync val_loaders = Ok (map (fun _ => [L; A]) val_loaders) /\
    validation_epoch num_batches val_loaders = Ok (Qdiv L (float num_batches), A) /\
    Qeq L (Qdiv (qsum (map (fun vl => qsum (map cross_entropy vl)) val_loaders))
                (float (length val_loaders))) /\
    Qeq A (Qdiv (qsum (map (fun vl => accuracy (concat vl)) val_loaders))
                (float (length val_loaders))) /\
    Qeq A (accuracy (all_examples val_loaders)).
Proof.
  intros Hne Hn Heq.
  assert (Hnonempty : Forall (fun vl : list (list scored) => concat vl <> []) val_loaders).
  { eapply Forall_impl; [exact Heq|]. intros vl Hvl E. simpl in Hvl. rewrite E in Hvl.
    simpl in Hvl. lia. }
  destruct (validate_all val_loaders Hnonempty) as (locals & Hm & Hlen & Hp & HL & HA).
  assert (Hlne : locals <> []).
  { destruct locals; [|discriminate]. destruct val_loaders; [congruence | discriminate]. }
  destruct (tensor_sum_pairs locals Hlne Hp) as (L & A & Hsum & HsL & HsA).
  set (K := float (length val_loaders)).
  assert (Hsync : validation_sync val_loaders
                  = Ok (map (fun _ => [Qdiv L K; Qdiv A K]) val_loaders)).
  { unfold validation_sync. rewrite Hm. cbn [bind]. f_equal.
    unfold all_reduce_sum. rewrite map_map, Hsum. cbn [tensor_div map]. fold K.
    generalize K. intros c. clear -Hlen. revert val_loaders Hlen.
    induction locals as [|t locals IH]; intros [|vl vls] Hlen; simpl in Hlen;
      try discriminate; [reflexivity|].
    cbn [map]. f_equal. apply IH. lia. }
  assert (HK : ~ Qeq K 0).
  { apply float_nonzero. destruct val_loaders; [congruence | discriminate]. }
  exists (Qdiv L K), (Qdiv A K). split; [exact Hsync|]. split.
  - unfold validation_epoch. rewrite Hsync. cbn [bind].
    destruct val_loaders; [congruence | reflexivity].
  - split; [rewrite HsL, HL; reflexivity|].
    split; [rewrite HsA, HA; reflexivity|].
    destruct (accuracy_equal_shards n val_loaders ltac:(lia) Heq) as [Hall Hacc].
    rewrite HsA, HA, Hacc. unfold accuracy. rewrite Hall, float_mul. fold K.
    field. split; [apply float_nonzero; lia | exact HK].
Qed.

Lemma validation_equal_shards_witness :
  even_shards <> [] /\ 0 < 2 /\
  exists L A, validation_epoch 1 even_shards = Ok (Qdiv L (float 1), A) /\
    Qeq A (accuracy (all_examples even_shards)).
Proof.
  assert (H1 : even_shards <> []) by discriminate.
  assert (H2 : 0 < 2) by lia.
  assert (H3 : Forall (fun vl : list (list scored) => length (concat vl) = 2) even_shards)
    by (repeat constructor).
  split; [exact H1|]. split; [exact H2|].
  destruct (validation_equal_shards 1 2 even_shards H1 H2 H3) as (L & A & _ & He & _ & _ & Ha).
  exists L, A. split; [exact He | exact Ha].
Defined.

Example validation_epoch_uneven_shards :
  validation_epoch 1 uneven_shards = Ok (0 # 6, 3 # 6)%Q /\
  accuracy (all_examples uneven_shards) = (1 # 4)%Q.
Proof. split; reflexivity. Qed.

(** C5, as stated, fails on shards of different sizes: the code reports
    accuracy 1/2 where the accuracy over all four examples is 1/4. *)
Lemma report_is_global_counterexample : ~ report_is_global 1 uneven_shards.
Proof.
  intros (l & a & H & _ & Ha).
  vm_compute in H. inversion H; subst; clear H.
  vm_compute in Ha. discriminate Ha.
Qed.

(** ** One training batch *)

Lemma accumulate_fresh (g l : grads) :
  length g = length l -> zip_with accumulate (map (fun _ => None) g) l = l.
Proof.
  revert l. induction g as [|o g IH]; intros [|d l] H; simpl in *; try discriminate;
    [reflexivity|].
  f_equal; [destruct d; reflexivity | apply IH; lia].
Qed.

(** After [loss.backward()] the gradients are what autograd computed. *)
Lemma grads_after_backward (n : nat) (ws : list worker) (locals : list grads) :
  length locals = length ws ->
  Forall (fun w => length (grad w) = n) ws ->
  Forall (fun g : grads => length g = n) locals ->
  map grad (zip_with backward locals (map forward_loss (map zero_grad ws))) = locals.
Proof.
  revert locals. induction ws as [|w ws IH]; intros [|l locals] Hlen Hws Hl;
    simpl in *; try discriminate; [reflexivity|].
  inversion Hws; subst. inversion Hl; subst.
  f_equal; [apply accumulate_fresh; lia | apply IH; auto].
Qed.

Lemma all_defined_length (n : nat) (ws : list grads) :
  all_defined n ws -> Forall (fun g : grads => length g = n) ws.
Proof. intros H. eapply Forall_impl; [exact H|]. intros g [Hg _]. exact Hg. Qed.

(** A training batch takes every worker to [after_batch] of the
    synchronized gradients. *)
Lemma train_batch_eq (n : nat) (ws : list worker) (locals : list grads) :
  length locals = length ws ->
  Forall (fun w => length (grad w) = n) ws ->
  all_defined n locals ->
  train_batch ws locals = Ok (map (after_batch (synced n locals)) ws).
Proof.
  intros Hlen Hws Hdef. unfold train_batch.
  rewrite (grads_after_backward n) by auto using all_defined_length.
  rewrite (average_gradients_all_defined n locals Hdef). cbn [bind]. f_equal.
  fold (synced n locals). generalize (synced n locals). intros G.
  clear Hdef Hws. revert locals Hlen.
  induction ws as [|w ws IH]; intros [|l locals] Hlen; simpl in *; try discriminate;
    [reflexivity|].
  f_equal; [|apply IH; lia].
  unfold optimizer_step, after_batch, train_ops. simpl.
  rewrite <- !app_assoc. reflexivity.
Qed.

Lemma synced_length (n : nat) (locals : list grads) : length (synced n locals) = n.
Proof. unfold synced. rewrite length_map, length_seq. reflexivity. Qed.

Lemma train_batches_eq (n : nat) (ws : list worker) (train_loader : list (list grads)) :
  Forall (fun w => length (grad w) = n) ws ->
  Forall (fun locals => length locals = length ws /\ all_defined n locals) train_loader ->
  train_batches ws train_loader
  = Ok (map (after_batches (map (synced n) train_loader)) ws).
Proof.
  intros Hws Htl. revert ws Hws Htl.
  induction train_loader as [|locals tl IH]; intros ws Hws Htl; cbn [train_batches map].
  - f_equal. rewrite <- (map_id ws) at 1. reflexivity.
  - inversion Htl as [|? ? [Hlen Hdef] Htl']; subst.
    rewrite (train_batch_eq n) by assumption. cbn [bind].
    rewrite IH.
    + rewrite map_map. reflexivity.
    + apply Forall_map. apply Forall_forall. intros w _. simpl. apply synced_length.
    + rewrite length_map. exact Htl'.
Qed.

(** What a sequence of training batches does to one worker. *)
Lemma after_batches_facts (n : nat) (Gs : list grads) (w : worker) :
  length (grad w) = n -> Forall (fun G : grads => length G = n) Gs ->
  training (after_batches Gs w) = training w /\
  length (grad (after_batches Gs w)) = n /\
  log (after_batches Gs w) = log w ++ concat (replicate (length Gs) (train_ops (mode_of w))).
Proof.
  intros Hw HGs. revert w Hw. induction HGs as [|G Gs HG _ IH]; intros w Hw.
  - cbn. rewrite app_nil_r. auto.
  - unfold after_batches. cbn [foldl]. fold (after_batches Gs (after_batch G w)).
    destruct (IH (after_batch G w) HG) as (Ht & Hg & Hl).
    split; [rewrite Ht; reflexivity|]. split; [exact Hg|].
    rewrite Hl. cbn [length replicate concat log after_batch].
    unfold mode_of. cbn [training after_batch]. rewrite <- app_assoc. reflexivity.
Qed.

Lemma after_batch_consistent (G : grads) (ws : list worker) :
  consistent ws -> consistent (map (after_batch G) ws).
Proof.
  intros H r1 r2 w1 w2 H1 H2.
  apply list_lookup_fmap_Some in H1 as (v1 & -> & H1).
  apply list_lookup_fmap_Some in H2 as (v2 & -> & H2).
  destruct (H r1 r2 v1 v2 H1 H2) as [Hp Hb]. cbn [after_batch params momentum_buffer].
  rewrite Hp, Hb. split; reflexivity.
Qed.

(** ** Epochs *)

Lemma validation_sync_Ok (val_loaders : list (list (list scored))) :
  Forall (fun vl => concat vl <> []) val_loaders ->
  exists ts, validation_sync val_loaders = Ok ts.
Proof.
  intros H. destruct (validate_all val_loaders H) as (locals & Hm & _).
  unfold validation_sync. rewrite Hm. cbn [bind]. eauto.
Qed.

Lemma validation_ops_val_ops (w : worker) (val_loader : list (list scored)) :
  validation_ops w val_loader = val_ops (mode_of w) val_loader.
Proof. reflexivity. Qed.

Lemma epoch_facts (n K : nat) (ws : list worker)
    (d : list (list grads) * list (list (list scored))) :
  length ws = K -> Forall (fun w => length (grad w) = n) ws -> epoch_data_ok n K d ->
  exists ws', epoch ws (fst d) (snd d) = Ok ws' /\ length ws' = K /\
    Forall (fun w => length (grad w) = n) ws' /\
    forall r w', ws' !! r = Some w' ->
      exists w, ws !! r = Some w /\ training w' = training w /\
        log w' = log w ++ epoch_ops (mode_of w) (length (fst d)) (nth r (snd d) []).
Proof.
  intros HK Hws (Htl & Hvl & Hne). unfold epoch.
  rewrite (train_batches_eq n) by (try assumption; rewrite HK; exact Htl). cbn [bind].
  destruct (validation_sync_Ok _ Hne) as (ts & ->). cbn [bind].
  set (Gs := map (synced n) (fst d)).
  assert (HGs : Forall (fun G : grads => length G = n) Gs).
  { unfold Gs. apply Forall_map. apply Forall_forall. intros l _. apply synced_length. }
  assert (Hpt : forall r w', zip_with (fun w vl => log_ops (validation_ops w vl) w)
                               (map (after_batches Gs) ws) (snd d) !! r = Some w' ->
                 exists w vl, ws !! r = Some w /\ snd d !! r = Some vl /\
                   w' = log_ops (validation_ops (after_batches Gs w) vl) (after_batches Gs w)).
  { intros r w' H. apply lookup_zip_with_Some in H as (w1 & vl & -> & H1 & H2).
    apply list_lookup_fmap_Some in H1 as (w & -> & H1). eauto. }
  eexists. split; [reflexivity|]. split; [|split].
  - rewrite length_zip_with, length_map. lia.
  - apply Forall_lookup_2. intros r w' H.
    destruct (Hpt r w' H) as (w & vl & Hw & _ & ->). cbn [log_ops grad].
    apply (after_batches_facts n Gs w); [|exact HGs].
    eapply (Forall_lookup_1 _ _ _ _ Hws). exact Hw.
  - intros r w' H. destruct (Hpt r w' H) as (w & vl & Hw & Hv & ->). exists w.
    assert (Hgw : length (grad w) = n) by (eapply (Forall_lookup_1 _ _ _ _ Hws); exact Hw).
    destruct (after_batches_facts n Gs w Hgw HGs) as (Ht & _ & Hl).
    split; [exact Hw|]. split; [exact Ht|]. cbn [log_ops log].
    rewrite Hl, validation_ops_val_ops. unfold epoch_ops, mode_of. rewrite Ht.
    unfold Gs. rewrite length_map. rewrite nth_lookup, Hv. cbn [default].
    rewrite <- app_assoc. reflexivity.
Qed.

Lemma epochs_facts (n K : nat) (es : list nat) (ws : list worker)
    (data : nat -> list (list grads) * list (list (list scored))) :
  length ws = K -> Forall (fun w => length (grad w) = n) ws ->
  (forall e, In e es -> epoch_data_ok n K (data e)) ->
  exists ws', epochs ws es data = Ok ws' /\ length ws' = K /\
    forall r w', ws' !! r = Some w' ->
      exists w, ws !! r = Some w /\ training w' = training w /\
        log w' = log w ++ run_ops (mode_of w) r data es.
Proof.
  revert ws. induction es as [|e es IH]; intros ws HK Hws Hd.
  - exists ws. split; [reflexivity|]. split; [exact HK|].
    intros r w' H. exists w'. unfold run_ops. cbn. rewrite app_nil_r. auto.
  - cbn [epochs].
    destruct (epoch_facts n K ws (data e) HK Hws (Hd e (or_introl eq_refl)))
      as (ws1 & -> & HK1 & Hws1 & H1).
    cbn [bind].
    destruct (IH ws1 HK1 Hws1 (fun e' He' => Hd e' (or_intror He'))) as (ws' & -> & HK' & H').
    exists ws'. split; [reflexivity|]. split; [exact HK'|].
    intros r w' Hr. destruct (H' r w' Hr) as (w1 & Hw1 & Ht1 & Hl1).
    destruct (H1 r w1 Hw1) as (w & Hw & Ht & Hl). exists w.
    split; [exact Hw|]. split; [congruence|].
    rewrite Hl1, Hl. unfold run_ops, mode_of. rewrite Ht. cbn [map concat].
    rewrite <- app_assoc. reflexivity.
Qed.

(** The operations a training batch and the ten epochs append to the
    log of every worker. *)
Theorem run_training_order (n K : nat) (ws : list worker)
    (data : nat -> list (list grads) * list (list (list scored))) :
  length ws = K -> Forall (fun w => length (grad w) = n) ws ->
  (forall e, e < 10 -> epoch_data_ok n K (data e)) ->
  (forall locals, length locals = K -> all_defined n locals ->
     exists ws1, train_batch ws locals = Ok ws1 /\
       forall r w1, ws1 !! r = Some w1 ->
         exists w, ws !! r = Some w /\
           log w1 = log w ++ [OpZeroGrad; OpForward (mode_of w); OpLoss; OpBackward;
                              OpSyncGradients; OpOptimizerStep]) /\
  exists ws', run_training_epochs ws data = Ok ws' /\ length ws' = K /\
    forall r w', ws' !! r = Some w' ->
      exists w, ws !! r = Some w /\
        log w' = log w ++ run_ops (mode_of w) r data [0; 1; 2; 3; 4; 5; 6; 7; 8; 9].
Proof.
  intros HK Hws Hd. split.
  - intros locals Hlen Hdef. eexists. split.
    + apply (train_batch_eq n); [lia | exact Hws | exact Hdef].
    + intros r w1 H. apply list_lookup_fmap_Some in H as (w & -> & Hw).
      exists w. split; [exact Hw | reflexivity].
  - destruct (epochs_facts n K (seq 0 10) ws data HK Hws) as (ws' & Hrun & HK' & H').
    { intros e He. apply Hd. apply in_seq in He. lia. }
    exists ws'. split; [exact Hrun|]. split; [exact HK'|].
    intros r w' Hr. destruct (H' r w' Hr) as (w & Hw & _ & Hl). exists w. split; assumption.
Qed.

Lemma run_training_order_witness :
  length (new_group seeded_init 1) = 1 /\
  exists ws', run_training_epochs (new_group seeded_init 1) tiny_data = Ok ws' /\
              length ws' = 1.
Proof.
  assert (H1 : length (new_group seeded_init 1) = 1) by reflexivity.
  assert (H2 : Forall (fun w => length (grad w) = 1) (new_group seeded_init 1))
    by (repeat constructor).
  assert (H3 : forall e, e < 10 -> epoch_data_ok 1 1 (tiny_data e)).
  { intros e _. unfold epoch_data_ok, tiny_data, all_defined. simpl.
    repeat split; repeat constructor; try (eexists; reflexivity); discriminate. }
  split; [exact H1|].
  destruct (run_training_order 1 1 (new_group seeded_init 1) tiny_data H1 H2 H3)
    as (_ & ws' & Hrun & Hlen & _).
  exists ws'. split; [exact Hrun | exact Hlen].
Defined.

(** ** The mode of the normalization layer *)

Lemma forward_in_epoch_ops (m m0 : mode) (num_batches : nat) (vl : list (list scored)) :
  In (OpForward m) (epoch_ops m0 num_batches vl) -> m = m0.
Proof.
  unfold epoch_ops, val_ops. rewrite !in_app_iff. intros [H | [H | H]].
  - apply in_concat in H as (ops & Hops & Hin).
    apply list_elem_of_In, elem_of_replicate in Hops as [-> _].
    simpl in Hin. intuition congruence.
  - apply in_flat_map in H as (b & _ & Hin). simpl in Hin. intuition congruence.
  - simpl in H. intuition congruence.
Qed.

Lemma forward_in_run_ops (m m0 : mode) (r : nat)
    (data : nat -> list (list grads) * list (list (list scored))) (es : list nat) :
  In (OpForward m) (run_ops m0 r data es) -> m = m0.
Proof.
  unfold run_ops. intros H. apply in_concat in H as (ops & Hops & Hin).
  apply in_map_iff in Hops as (e & <- & _). eapply forward_in_epoch_ops. exact Hin.
Qed.

Lemma new_group_lookup (net_init : Z -> list tensor) (K r : nat) (w : worker) :
  new_group net_init K !! r = Some w <-> r < K /\ w = new_worker net_init r.
Proof.
  unfold new_group. split.
  - intros H. apply list_lookup_fmap_Some in H as (j & -> & Hj).
    apply lookup_seq in Hj as [-> Hlt]. auto.
  - intros [Hr ->]. rewrite list_lookup_fmap, lookup_seq_lt by exact Hr. reflexivity.
Qed.

(** C6 (as the code has it): [run_training] never leaves the mode a fresh
    module is in, so in every epoch every forward pass, those of the
    validation batches included, runs the model in training mode. *)
Theorem validation_runs_in_training_mode (n K : nat) (net_init : Z -> list tensor)
    (data : nat -> list (list grads) * list (list (list scored))) :
  (forall seed, length (net_init seed) = n) ->
  (forall e, e < 10 -> epoch_data_ok n K (data e)) ->
  exists ws', run_training_epochs (new_group net_init K) data = Ok ws' /\
    forall r w', ws' !! r = Some w' ->
      training w' = true /\
      (forall m, In (OpForward m) (log w') -> m = Training) /\
      (forall vl m, In (OpForward m) (validation_ops w' vl) -> m = Training).
Proof.
  intros Hn Hd.
  assert (HK : length (new_group net_init K) = K)
    by (unfold new_group; rewrite length_map, length_seq; reflexivity).
  assert (Hws : Forall (fun w => length (grad w) = n) (new_group net_init K)).
  { apply Forall_lookup_2. intros r w H. apply new_group_lookup in H as [_ ->].
    cbn [new_worker grad]. rewrite length_map. apply Hn. }
  destruct (epochs_facts n K (seq 0 10) (new_group net_init K) data HK Hws)
    as (ws' & Hrun & _ & H').
  { intros e He. apply Hd. apply in_seq in He. lia. }
  exists ws'. split; [exact Hrun|].
  intros r w' Hr. destruct (H' r w' Hr) as (w & Hw & Ht & Hl).
  apply new_group_lookup in Hw as [_ ->].
  assert (Htrain : training w' = true) by (rewrite Ht; reflexivity).
  split; [exact Htrain|]. split.
  - intros m Hin. rewrite Hl in Hin. cbn [new_worker log app] in Hin.
    eapply forward_in_run_ops. exact Hin.
  - intros vl m Hin. rewrite validation_ops_val_ops in Hin.
    unfold mode_of in Hin. rewrite Htrain in Hin.
    apply (forward_in_epoch_ops m Training 0 vl). exact Hin.
Qed.

Lemma validation_runs_in_training_mode_witness :
  (forall seed, length (seeded_init seed) = 1) /\
  exists ws', run_training_epochs (new_group seeded_init 1) tiny_data = Ok ws' /\
    forall r w', ws' !! r = Some w' -> training w' = true.
Proof.
  assert (H1 : forall seed, length (seeded_init seed) = 1) by reflexivity.
  assert (H2 : forall e, e < 10 -> epoch_data_ok 1 1 (tiny_data e)).
  { intros e _. unfold epoch_data_ok, tiny_data, all_defined. simpl.
    repeat split; repeat constructor; try (eexists; reflexivity); discriminate. }
  split; [exact H1|].
  destruct (validation_runs_in_training_mode 1 1 seeded_init tiny_data H1 H2)
    as (ws' & Hrun & H').
  exists ws'. split; [exact Hrun|]. intros r w' Hr. apply (H' r w' Hr).
Defined.

(** C6, as stated, fails on a validation pass of one batch: the forward pass
    runs in training mode. *)
Lemma validates_in_eval_mode_counterexample :
  ~ validates_in_eval_mode (new_worker seeded_init 0) [[Scored 0 true]].
Proof.
  intros H. specialize (H Training). simpl in H.
  assert (E : Training = Evaluation) by (apply H; left; reflexivity).
  discriminate E.
Qed.

(** ** Initialization and consistency *)

(** C8 (as the code has it): rank [r] draws its parameters from the
    generator seeded with [r]; the workers start with equal parameters exactly
    when the initializer gives the same parameters for all their ranks; and a
    training batch keeps workers that hold equal parameters and optimizer
    state equal. *)
Theorem consistency_from_initialization (net_init : Z -> list tensor) (K : nat) :
  (forall r, r < K ->
     exists w, new_group net_init K !! r = Some w /\ params w = net_init (Z.of_nat r)) /\
  (consistent (new_group net_init K) <->
     forall r1 r2, r1 < K -> r2 < K -> net_init (Z.of_nat r1) = net_init (Z.of_nat r2)) /\
  (forall n ws locals,
     consistent ws -> length locals = length ws ->
     Forall (fun w => length (grad w) = n) ws -> all_defined n locals ->
     exists ws', train_batch ws locals = Ok ws' /\ consistent ws').
Proof.
  split; [|split].
  - intros r Hr. exists (new_worker net_init r). split; [|reflexivity].
    apply new_group_lookup. auto.
  - split.
    + intros Hc r1 r2 H1 H2.
      apply (Hc r1 r2 (new_worker net_init r1) (new_worker net_init r2));
        apply new_group_lookup; auto.
    + intros Heq r1 r2 w1 w2 H1 H2.
      apply new_group_lookup in H1 as [H1 ->]. apply new_group_lookup in H2 as [H2 ->].
      cbn [new_worker params momentum_buffer]. rewrite (Heq r1 r2 H1 H2). auto.
  - intros n ws locals Hc Hlen Hws Hdef. eexists. split.
    + apply (train_batch_eq n); assumption.
    + apply after_batch_consistent. exact Hc.
Qed.

Lemma consistency_from_initialization_witness :
  consistent (new_group constant_init 2).
Proof.
  apply (consistency_from_initialization constant_init 2).
  intros r1 r2 _ _. reflexivity.
Defined.

(** C8, as stated, fails for an initializer that depends on its seed:
    ranks 0 and 1 start with different parameters. *)
Lemma consistent_counterexample : ~ consistent (new_group seeded_init 2).
Proof.
  intros H.
  destruct (H 0 1 (new_worker seeded_init 0) (new_worker seeded_init 1)
              eq_refl eq_refl) as [Hp _].
  discriminate Hp.
Qed.

(** ** The synchronized normalization layer *)

Lemma foldl_tensor_add_counts (xs : list (list tensor)) (c : Q) :
  exists C, foldl tensor_add [c] (map (fun x : list tensor => [float (length x)]) xs) = [C] /\
    Qeq C (Qplus c (float (length (concat xs)))).
Proof.
  revert c. induction xs as [|x xs IH]; intros c; cbn [map foldl concat].
  - exists c. split; [reflexivity|]. change (float (length [])) with (inject_Z 0). ring.
  - change (tensor_add [c] [float (length x)]) with [Qplus c (float (length x))].
    destruct (IH (Qplus c (float (length x)))) as (C & -> & HC).
    exists C. split; [reflexivity|]. rewrite HC, length_app, float_add. ring.
Qed.

Lemma global_count_total (feature_dim : nat) (xs : list (list tensor)) :
  xs <> [] ->
  exists C, tensor_sum (map local_count (map (local_stats feature_dim) xs)) = [C] /\
    Qeq C (float (length (concat xs))).
Proof.
  intros Hne. destruct xs as [|x xs]; [congruence|].
  rewrite map_map. cbn [map local_stats local_count tensor_sum concat].
  destruct (foldl_tensor_add_counts xs (float (length x))) as (C & HC & HE).
  exists C. split; [exact HC|]. rewrite HE, length_app, float_add. reflexivity.
Qed.

Lemma normalize_ranks_const (sqrt : Q -> Q) (eps var_floor : Q)
    (xs : list (list tensor)) {A : Type} (l : list A) (c s q : tensor)
    (f : list tensor -> list tensor) :
  length l = length xs ->
  (forall x, normalize_rank sqrt eps var_floor x c s q = Ok (f x)) ->
  normalize_ranks sqrt eps var_floor xs
    (map (fun _ => c) l) (map (fun _ => s) l) (map (fun _ => q) l) = Ok (map f xs).
Proof.
  intros Hlen Hf. revert l Hlen.
  induction xs as [|x xs IH]; intros [|a l] Hlen; simpl in Hlen; try discriminate;
    [reflexivity|].
  cbn [map normalize_ranks]. rewrite Hf. cbn [bind]. rewrite IH by lia. reflexivity.
Qed.

(** The training-mode forward pass in terms of the reduced statistics,
    when the global batch is not empty. *)
Theorem syncbn_forward_train_spec (sqrt : Q -> Q) (eps var_floor : Q)
    (feature_dim : nat) (xs : list (list tensor)) :
  concat xs <> [] ->
  let stats := map (local_stats feature_dim) xs in
  let global_sum := tensor_sum (map local_sum stats) in
  let global_sum_sq := tensor_sum (map local_sum_sq stats) in
  exists global_count,
    tensor_sum (map local_count stats) = [global_count] /\
    Qeq global_count (float (length (concat xs))) /\
    let mean := tensor_div global_sum global_count in
    let var := zip_with (fun sq m =>
                           clamp_min var_floor (Qminus (Qdiv sq global_count) (Qmult m m)))
                        global_sum_sq mean in
    syncbn_forward_train sqrt eps var_floor feature_dim xs
    = Ok (map (map (fun x => zip_with (fun xm v => Qdiv xm (sqrt (Qplus v eps)))
                                      (zip_with Qminus x mean) var)) xs).
Proof.
  intros Hne stats global_sum global_sum_sq.
  assert (Hxs : xs <> []) by (intros ->; apply Hne; reflexivity).
  destruct (global_count_total feature_dim xs Hxs) as (C & HC & HE).
  exists C. split; [exact HC|]. split; [exact HE|].
  intros mean var. unfold syncbn_forward_train, all_reduce_sum. rewrite !map_map.
  rewrite map_map in HC.
  apply (normalize_ranks_const sqrt eps var_floor xs xs); [reflexivity|].
  intros x. rewrite HC. cbn [normalize_rank].
  assert (Hnz : Qeq_bool C 0 = false).
  { destruct (Qeq_bool C 0) eqn:E; [|reflexivity]. apply Qeq_bool_iff in E.
    exfalso. rewrite HE in E. revert E. apply float_nonzero.
    destruct (concat xs); [congruence | discriminate]. }
  rewrite Hnz. unfold normalize, global_var, global_mean.
  subst mean var global_sum global_sum_sq stats. rewrite !map_map. reflexivity.
Qed.

(** With the identity in place of [sqrt], [eps = 0] and floor [1e-5]: the
    mean is [(3, 4)] and the variance [8/3] for both features. *)
Example syncbn_forward_two_local_batches :
  syncbn_forward_train (fun q => q) 0 (1 # 100000) 2 two_local_batches
  = Ok [ [[-162 # 216; -162 # 216]] ;
         [[0 # 216; 0 # 216]; [162 # 216; 162 # 216]] ]%Q.
Proof. reflexivity. Qed.

Lemma syncbn_forward_train_spec_witness :
  concat two_local_batches <> [] /\
  exists global_count,
    tensor_sum (map local_count (map (local_stats 2) two_local_batches)) = [global_count] /\
    Qeq global_count (float 3).
Proof.
  assert (H : concat two_local_batches <> []) by discriminate.
  split; [exact H|].
  destruct (syncbn_forward_train_spec (fun q => q) 1 0 2 two_local_batches H)
    as (C & HC & HE & _).
  exists C. split; [exact HC | exact HE].
Defined.

(** * Further properties of the script *)

(** ** [average_gradients]: when it completes, and what it keeps *)

Lemma defined_at_lookup (i : nat) (ws : list grads) :
  defined_at i ws <-> forall r g, ws !! r = Some g -> exists t, g !! i = Some (Some t).
Proof.
  unfold defined_at. rewrite Forall_lookup. reflexivity.
Qed.

(** The loop invariant of [average_gradients], for workers that may hold
    more parameters than the loop visits. *)
Lemma average_gradients_prefix_defined (k : nat) (size : Q) (ws : list grads) :
  (forall i, i < k -> defined_at i ws) ->
  foldl (fun acc i => ws' <- acc ;; sync_param size ws' i) (Ok ws) (seq 0 k)
  = Ok (map (fun g : grads =>
               map (fun i => Some (tensor_div (tensor_sum (column i ws)) size)) (seq 0 k)
               ++ drop k g) ws).
Proof.
  induction k as [|k IH]; intros Hdef.
  - simpl. f_equal. rewrite <- (map_id ws) at 1. apply map_ext. intros g.
    rewrite drop_0. reflexivity.
  - rewrite seq_S, foldl_app. simpl. rewrite IH by (intros i Hi; apply Hdef; lia). simpl.
    assert (Hat : defined_at k ws) by (apply Hdef; lia).
    set (pre := map (fun i => Some (tensor_div (tensor_sum (column i ws)) size)) (seq 0 k)).
    assert (Hpre : length pre = k) by (unfold pre; rewrite length_map, length_seq; reflexivity).
    assert (Hat' : defined_at k (map (fun g : grads => pre ++ drop k g) ws)).
    { unfold defined_at in *. apply Forall_map. eapply Forall_impl; [exact Hat|].
      intros g [t Ht]. simpl. exists t. rewrite lookup_prefix_drop by exact Hpre. exact Ht. }
    rewrite (sync_param_defined _ _ _ Hat'). f_equal.
    rewrite column_prefix by exact Hpre. rewrite map_map.
    apply map_ext_Forall. eapply Forall_impl; [exact Hat|].
    intros g [t Ht]. simpl.
    rewrite insert_prefix_drop; [|exact Hpre|eapply lookup_lt_Some; exact Ht].
    unfold pre. rewrite map_app. reflexivity.
Qed.

Lemma average_gradients_raises (ws : list grads) (r i : nat) (g : grads) :
  ws !! r = Some g -> (forall t, g !! i <> Some (Some t)) -> i < num_parameters ws ->
  average_gradients ws = Raise AttributeError.
Proof.
  intros Hr Hi Hn. unfold average_gradients.
  set (size := float (length ws)).
  replace (num_parameters ws) with (i + S (num_parameters ws - S i)) by lia.
  rewrite seq_app, foldl_app. simpl.
  destruct (average_gradients_loop_cases size ws i) as [-> | (ws' & -> & Hinv)].
  - simpl. apply fold_sync_Raise.
  - simpl. destruct (Forall2_lookup_l _ _ _ _ _ Hinv Hr) as (g' & Hg' & Hgg').
    assert (Hraise : sync_param size ws' i = Raise AttributeError).
    { unfold sync_param. rewrite (mapM_Raise (grad_data i) ws' g' AttributeError).
      - reflexivity.
      - apply list_elem_of_In. eapply list_elem_of_lookup_2. exact Hg'.
      - unfold grad_data. rewrite Hgg' by lia.
        destruct (g !! i) as [[t|]|] eqn:E; [exfalso; eapply Hi; reflexivity| |]; reflexivity.
      - intros x e' He. eapply grad_data_error. exact He. }
    rewrite Hraise. apply fold_sync_Raise.
Qed.

Lemma average_gradients_defined_Ok (ws : list grads) :
  gradients_defined ws ->
  average_gradients ws
  = Ok (map (fun g : grads =>
               map (fun i => Some (mean_grad ws i)) (seq 0 (num_parameters ws))
               ++ drop (num_parameters ws) g) ws).
Proof.
  intros Hdef. unfold average_gradients. cbn zeta.
  apply average_gradients_prefix_defined. intros i Hi. apply defined_at_lookup.
  intros r g Hr. eapply Hdef; eauto.
Qed.

Lemma average_gradients_Ok_defined (ws ws' : list grads) :
  average_gradients ws = Ok ws' -> gradients_defined ws.
Proof.
  intros H r g i Hr Hi. destruct (g !! i) as [[t|]|] eqn:E; [eauto| |];
    rewrite (average_gradients_raises ws r i g Hr) in H;
    try discriminate; try exact Hi; intros t; rewrite E; discriminate.
Qed.

(** [average_gradients] completes exactly when every worker has a defined
    gradient for each of the parameters the loop visits; it then overwrites
    these with the cross-worker means and leaves any further entry alone. *)
Theorem average_gradients_completes_iff (ws ws' : list grads) :
  average_gradients ws = Ok ws' <->
  gradients_defined ws /\
  ws' = map (fun g : grads =>
               map (fun i => Some (mean_grad ws i)) (seq 0 (num_parameters ws))
               ++ drop (num_parameters ws) g) ws.
Proof.
  split.
  - intros H. pose proof (average_gradients_Ok_defined ws ws' H) as Hdef.
    split; [exact Hdef|]. rewrite (average_gradients_defined_Ok ws Hdef) in H. congruence.
  - intros [Hdef ->]. apply average_gradients_defined_Ok. exact Hdef.
Qed.

Lemma tensor_add_length (m : nat) (a b : tensor) :
  length a = m -> length b = m -> length (tensor_add a b) = m.
Proof. intros Ha Hb. unfold tensor_add. rewrite length_zip_with. lia. Qed.

Lemma tensor_sum_length (m : nat) (ts : list tensor) :
  ts <> [] -> Forall (fun t : tensor => length t = m) ts -> length (tensor_sum ts) = m.
Proof.
  intros Hne H. destruct ts as [|t ts]; [congruence|].
  inversion H as [|t0 ts0 Ht Hts [E1 E2]]. cbn [tensor_sum]. clear H Hne E1 E2.
  revert t Ht. induction Hts as [|t' ts Ht' _ IH]; intros t Ht; [exact Ht|].
  cbn [foldl]. apply IH. apply tensor_add_length; assumption.
Qed.

Lemma gradients_defined_length (ws : list grads) (r : nat) (g : grads) :
  gradients_defined ws -> ws !! r = Some g -> num_parameters ws <= length g.
Proof.
  intros Hdef Hr. destruct (num_parameters ws) as [|n] eqn:E; [lia|].
  destruct (Hdef r g n Hr ltac:(lia)) as [t Ht]. apply lookup_lt_Some in Ht. lia.
Qed.

(** A completed synchronization keeps the number of workers, the number of
    parameters of every worker and, where the workers' tensors for a
    parameter all have [m] entries, the [m] entries of that gradient. *)
Theorem average_gradients_keeps_shapes (ws ws' : list grads) :
  average_gradients ws = Ok ws' ->
  length ws' = length ws /\
  Forall2 (fun g g' : grads => length g' = length g) ws ws' /\
  forall i m r (g' : grads) t',
    i < num_parameters ws ->
    Forall (fun t : tensor => length t = m) (column i ws) ->
    ws' !! r = Some g' -> g' !! i = Some (Some t') -> length t' = m.
Proof.
  intros H. pose proof (average_gradients_Ok_defined ws ws' H) as Hdef.
  rewrite (average_gradients_defined_Ok ws Hdef) in H. inversion H; subst ws'; clear H.
  set (n := num_parameters ws).
  split; [apply length_map|]. split.
  - apply Forall2_fmap_r. apply Forall_Forall2_diag. apply Forall_lookup_2.
    intros r g Hr. unfold compose. cbn beta. rewrite length_app, length_map, length_seq, length_drop.
    pose proof (gradients_defined_length ws r g Hdef Hr). fold n in H. lia.
  - intros i m r g' t' Hi Hm Hr Hg'.
    apply list_lookup_fmap_Some in Hr as (g & -> & Hr).
    rewrite lookup_app_l in Hg' by (rewrite length_map, length_seq; exact Hi).
    rewrite list_lookup_fmap, lookup_seq_lt in Hg' by exact Hi.
    cbn in Hg'. inversion Hg'; subst t'. unfold mean_grad, tensor_div.
    rewrite length_map. apply tensor_sum_length; [|exact Hm].
    destruct (Hdef r g i Hr Hi) as [t Ht].
    assert (Hat : defined_at i ws).
    { apply defined_at_lookup. intros r0 g0 Hr0. eapply Hdef; eauto. }
    pose proof (column_length i ws Hat) as Hlen.
    intros E. rewrite E in Hlen. simpl in Hlen.
    apply lookup_lt_Some in Hr. lia.
Qed.

Lemma average_gradients_keeps_shapes_witness :
  average_gradients two_workers_grads
  = Ok [ [Some [4 # 2; 6 # 2]; Some [8 # 2]] ; [Some [4 # 2; 6 # 2]; Some [8 # 2]] ]%Q /\
  length [ [Some [4 # 2; 6 # 2]; Some [8 # 2]] ; [Some [4 # 2; 6 # 2]; Some [8 # 2]] ]%Q
  = length two_workers_grads.
Proof.
  assert (H : average_gradients two_workers_grads
              = Ok [ [Some [4 # 2; 6 # 2]; Some [8 # 2]] ;
                     [Some [4 # 2; 6 # 2]; Some [8 # 2]] ]%Q) by reflexivity.
  split; [exact H|].
  apply (average_gradients_keeps_shapes two_workers_grads _ H).
Defined.

(** *** Gradients that already agree *)

Lemma zip_with_Qplus_scaled (c : Q) (a t : tensor) :
  Forall2 (fun y x => Qeq y (Qmult c x)) a t ->
  Forall2 (fun y x => Qeq y (Qmult (Qplus c 1) x)) (tensor_add a t) t.
Proof.
  induction 1 as [|y x a t Hyx _ IH]; cbn; constructor; [|exact IH].
  rewrite Hyx. ring.
Qed.

Lemma foldl_tensor_add_replicate (k : nat) (c : Q) (a t : tensor) :
  Forall2 (fun y x => Qeq y (Qmult c x)) a t ->
  Forall2 (fun y x => Qeq y (Qmult (Qplus c (float k)) x))
          (foldl tensor_add a (replicate k t)) t.
Proof.
  revert c a. induction k as [|k IH]; intros c a H; cbn [replicate foldl].
  - eapply Forall2_impl; [exact H|]. intros y x Hyx. cbn beta in *. rewrite Hyx.
    change (float 0) with (inject_Z 0). ring.
  - eapply Forall2_impl; [apply (IH (Qplus c 1)), zip_with_Qplus_scaled, H|].
    intros y x Hyx. cbn beta in *. rewrite Hyx.
    replace (S k) with (k + 1) by lia. rewrite float_add.
    change (float 1) with (inject_Z 1). ring.
Qed.

Lemma column_replicate (K i : nat) (g : grads) (t : tensor) :
  g !! i = Some (Some t) -> column i (replicate K g) = replicate K t.
Proof.
  intros H. induction K as [|K IH]; cbn [replicate column]; [reflexivity|].
  rewrite H, IH. reflexivity.
Qed.

Lemma mean_of_copies (K : nat) (t : tensor) :
  0 < K -> tensor_eq (tensor_div (tensor_sum (replicate K t)) (float K)) t.
Proof.
  intros HK. destruct K as [|k]; [lia|]. cbn [replicate tensor_sum].
  unfold tensor_eq, tensor_div. apply Forall2_fmap_l.
  eapply Forall2_impl.
  - apply (foldl_tensor_add_replicate k 1 t t).
    apply Forall_Forall2_diag. apply Forall_forall. intros x _. ring.
  - intros y x Hyx. unfold compose. cbn beta in *. rewrite Hyx.
    replace (S k) with (k + 1) by lia. rewrite float_add.
    change (float 1) with (inject_Z 1).
    assert (Hnz : ~ Qeq (Qplus (float k) (inject_Z 1)) 0).
    { rewrite <- (float_add k 1). apply float_nonzero. lia. }
    field. exact Hnz.
Qed.

(** Synchronizing gradients that are already the same on all workers
    changes nothing (as rationals); in particular a single worker keeps its
    own gradients. *)
Theorem average_gradients_of_equal (K : nat) (g : grads) :
  0 < K -> Forall (fun o : option tensor => is_Some o) g ->
  exists g' : grads,
    average_gradients (replicate K g) = Ok (replicate K g') /\
    Forall2 (fun o o' : option tensor =>
               exists t t', o = Some t /\ o' = Some t' /\ tensor_eq t' t) g g'.
Proof.
  intros HK Hg.
  assert (Hn : num_parameters (replicate K g) = length g)
    by (destruct K; [lia | reflexivity]).
  assert (Hdef : all_defined (length g) (replicate K g)).
  { unfold all_defined. apply Forall_replicate. auto. }
  exists (map (fun i => Some (mean_grad (replicate K g) i)) (seq 0 (length g))).
  split.
  - rewrite (average_gradients_all_defined _ _ Hdef).
    f_equal.
    generalize (map (fun i => Some (mean_grad (replicate K g) i)) (seq 0 (length g))).
    intros G. clear. induction K as [|K IH]; cbn [replicate map]; [reflexivity|].
    f_equal. exact IH.
  - apply Forall2_same_length_lookup_2; [rewrite length_map, length_seq; reflexivity|].
    intros i o o' Ho Ho'.
    assert (Hi : i < length g) by (eapply lookup_lt_Some; exact Ho).
    rewrite list_lookup_fmap, lookup_seq_lt in Ho' by exact Hi. cbn in Ho'.
    inversion Ho'; subst o'; clear Ho'.
    assert (Hs : is_Some o) by (eapply Forall_lookup_1; eauto).
    destruct Hs as [t ->]. exists t. eexists. split; [reflexivity|]. split; [reflexivity|].
    unfold mean_grad. rewrite (column_replicate K i g t Ho), length_replicate.
    apply mean_of_copies. exact HK.
Qed.

Lemma average_gradients_of_equal_witness :
  0 < 3 /\
  exists g' : grads,
    average_gradients (replicate 3 [Some [1; 2]; Some [3]]%Q) = Ok (replicate 3 g').
Proof.
  split; [lia|].
  destruct (average_gradients_of_equal 3 [Some [1; 2]; Some [3]]%Q) as (g' & H & _).
  - lia.
  - repeat constructor; eexists; reflexivity.
  - exists g'. exact H.
Defined.

(** ** The validation pass: empty shards, bounds, the reported loss *)

Lemma validate_empty (val_loader : list (list scored)) :
  concat val_loader = [] -> validate val_loader = Raise ZeroDivisionError.
Proof.
  intros E. unfold validate.
  destruct (val_loop (ValAcc 0%Q 0%Q 0) val_loader) as (Hc & _ & _). cbn zeta in Hc.
  rewrite E in Hc. cbn in Hc. rewrite Hc. reflexivity.
Qed.

Lemma validate_error (val_loader : list (list scored)) (e : py_error) :
  validate val_loader = Raise e -> e = ZeroDivisionError.
Proof.
  unfold validate. destruct (Nat.eqb _ 0); intros H; congruence.
Qed.

Lemma validation_sync_fails (val_loaders : list (list (list scored))) :
  Exists (fun vl => concat vl = []) val_loaders ->
  validation_sync val_loaders = Raise ZeroDivisionError.
Proof.
  intros H. apply Exists_exists in H as (vl & Hin & E).
  unfold validation_sync.
  rewrite (mapM_Raise validate val_loaders vl ZeroDivisionError); [reflexivity | | |].
  - apply list_elem_of_In. exact Hin.
  - apply validate_empty. exact E.
  - intros x e' He. eapply validate_error. exact He.
Qed.

(** The metric reduction of a validation pass completes exactly when every
    worker's loader yields at least one example; a worker without examples
    divides by zero, and with it the reduction of the whole group fails. *)
Theorem validation_sync_completes_iff (val_loaders : list (list (list scored))) :
  ((exists ts, validation_sync val_loaders = Ok ts) <->
   Forall (fun vl => concat vl <> []) val_loaders) /\
  (validation_sync val_loaders = Raise ZeroDivisionError <->
   Exists (fun vl => concat vl = []) val_loaders).
Proof.
  assert (Hdec : Forall (fun vl : list (list scored) => concat vl <> []) val_loaders \/
                 Exists (fun vl : list (list scored) => concat vl = []) val_loaders).
  { induction val_loaders as [|vl vls IH].
    - left. constructor.
    - destruct (concat vl) eqn:E.
      + right. left. exact E.
      + destruct IH as [IH|IH]; [|right; right; exact IH].
        left. constructor; [rewrite E; discriminate | exact IH]. }
  split; split.
  - intros [ts Hts]. destruct Hdec as [H|H]; [exact H|].
    rewrite (validation_sync_fails _ H) in Hts. discriminate.
  - apply validation_sync_Ok.
  - intros Hr. destruct Hdec as [H|H]; [|exact H].
    destruct (validation_sync_Ok _ H) as [ts Hts]. congruence.
  - apply validation_sync_fails.
Qed.

(** What the reduction yields on non-empty shards of any sizes. *)
Lemma validation_epoch_general (num_batches : nat)
    (val_loaders : list (list (list scored))) :
  val_loaders <> [] -> Forall (fun vl => concat vl <> []) val_loaders ->
  exists L A,
    validation_sync val_loaders = Ok (map (fun _ => [L; A]) val_loaders) /\
    validation_epoch num_batches val_loaders = Ok (Qdiv L (float num_batches), A) /\
    Qeq L (Qdiv (qsum (map (fun vl => qsum (map cross_entropy vl)) val_loaders))
                (float (length val_loaders))) /\
    Qeq A (Qdiv (qsum (map (fun vl => accuracy (concat vl)) val_loaders))
                (float (length val_loaders))).
Proof.
  intros Hne Hnonempty.
  destruct (validate_all val_loaders Hnonempty) as (locals & Hm & Hlen & Hp & HL & HA).
  assert (Hlne : locals <> []).
  { destruct locals; [|discriminate]. destruct val_loaders; [congruence | discriminate]. }
  destruct (tensor_sum_pairs locals Hlne Hp) as (L & A & Hsum & HsL & HsA).
  set (K := float (length val_loaders)).
  assert (Hsync : validation_sync val_loaders
                  = Ok (map (fun _ => [Qdiv L K; Qdiv A K]) val_loaders)).
  { unfold validation_sync. rewrite Hm. cbn [bind]. f_equal.
    unfold all_reduce_sum. rewrite map_map, Hsum. cbn [tensor_div map]. fold K.
    generalize K. intros c. clear -Hlen. revert val_loaders Hlen.
    induction locals as [|t locals IH]; intros [|vl vls] Hlen; simpl in Hlen;
      try discriminate; [reflexivity|].
    cbn [map]. f_equal. apply IH. lia. }
  exists (Qdiv L K), (Qdiv A K). split; [exact Hsync|]. split.
  - unfold validation_epoch. rewrite Hsync. cbn [bind].
    destruct val_loaders; [congruence | reflexivity].
  - split; [rewrite HsL, HL | rewrite HsA, HA]; reflexivity.
Qed.

Lemma float_le (a b : nat) : a <= b -> Qle (float a) (float b).
Proof. intros H. unfold float. rewrite <- Zle_Qle. lia. Qed.

Lemma float_pos (n : nat) : 0 < n -> Qlt 0 (float n).
Proof. intros H. unfold float. change 0%Q with (inject_Z 0). rewrite <- Zlt_Qlt. lia. Qed.

Lemma correct_count_le (l : list scored) : correct_count l <= length l.
Proof. unfold correct_count. apply List.filter_length_le. Qed.

Lemma accuracy_bounds (l : list scored) :
  l <> [] -> Qle 0 (accuracy l) /\ Qle (accuracy l) 1.
Proof.
  intros Hne. unfold accuracy.
  assert (Hpos : Qlt 0 (float (length l))) by (apply float_pos; destruct l; simpl; [congruence | lia]).
  split.
  - apply Qle_shift_div_l; [exact Hpos|]. rewrite Qmult_0_l.
    change 0%Q with (float 0). apply float_le. lia.
  - apply Qle_shift_div_r; [exact Hpos|]. rewrite Qmult_1_l.
    apply float_le. apply correct_count_le.
Qed.

Lemma qsum_accuracy_bounds (val_loaders : list (list (list scored))) :
  Forall (fun vl => concat vl <> []) val_loaders ->
  Qle 0 (qsum (map (fun vl => accuracy (concat vl)) val_loaders)) /\
  Qle (qsum (map (fun vl => accuracy (concat vl)) val_loaders)) (float (length val_loaders)).
Proof.
  induction 1 as [|vl vls Hvl _ [IH0 IH1]]; cbn [map length].
  - change (qsum []) with (float 0). split; apply Qle_refl.
  - rewrite qsum_cons. destruct (accuracy_bounds (concat vl) Hvl) as [H0 H1]. split.
    + change 0%Q with (Qplus 0 0). apply Qplus_le_compat; assumption.
    + replace (S (length vls)) with (1 + length vls) by lia. rewrite float_add.
      apply Qplus_le_compat; [exact H1 | exact IH1].
Qed.

(** Whatever the shard sizes, the accuracy rank 0 reports lies between 0
    and 1. *)
Theorem validation_accuracy_bounds (num_batches : nat)
    (val_loaders : list (list (list scored))) :
  val_loaders <> [] -> Forall (fun vl => concat vl <> []) val_loaders ->
  exists l a, validation_epoch num_batches val_loaders = Ok (l, a) /\
    Qle 0 a /\ Qle a 1.
Proof.
  intros Hne Hnonempty.
  destruct (validation_epoch_general num_batches val_loaders Hne Hnonempty)
    as (L & A & _ & He & _ & HA).
  exists (Qdiv L (float num_batches)), A. split; [exact He|].
  destruct (qsum_accuracy_bounds val_loaders Hnonempty) as [H0 H1].
  assert (HK : Qlt 0 (float (length val_loaders)))
    by (apply float_pos; destruct val_loaders; simpl; [congruence | lia]).
  rewrite HA. split.
  - apply Qle_shift_div_l; [exact HK|]. rewrite Qmult_0_l. exact H0.
  - apply Qle_shift_div_r; [exact HK|]. rewrite Qmult_1_l. exact H1.
Qed.

Lemma validation_accuracy_bounds_witness :
  uneven_shards <> [] /\
  exists l a, validation_epoch 1 uneven_shards = Ok (l, a) /\ Qle 0 a /\ Qle a 1.
Proof.
  assert (H1 : uneven_shards <> []) by discriminate.
  split; [exact H1|].
  apply (validation_accuracy_bounds 1 uneven_shards H1).
  repeat constructor; discriminate.
Defined.

Lemma qsum_app (a b : list Q) : Qeq (qsum (a ++ b)) (Qplus (qsum a) (qsum b)).
Proof.
  induction a as [|x a IH]; cbn [app].
  - change (qsum []) with (inject_Z 0). ring.
  - rewrite !qsum_cons, IH. ring.
Qed.

(** The loss a worker accumulates over batches of [b] examples each. *)
Lemma batch_losses_equal_batches (b : nat) (val_loader : list (list scored)) :
  0 < b -> Forall (fun bt => length bt = b) val_loader ->
  Qeq (qsum (map cross_entropy val_loader))
      (Qdiv (qsum (map ex_loss (concat val_loader))) (float b)) /\
  length (concat val_loader) = length val_loader * b.
Proof.
  intros Hb. assert (Hnz : ~ Qeq (float b) 0) by (apply float_nonzero; lia).
  induction 1 as [|bt vl Hbt _ [IH IHlen]]; cbn [map concat length].
  - split; [|reflexivity]. change (qsum []) with (inject_Z 0). field. exact Hnz.
  - split; [|rewrite length_app, IHlen, Hbt; lia].
    rewrite qsum_cons, IH, map_app, qsum_app. unfold cross_entropy. rewrite Hbt.
    field. exact Hnz.
Qed.

Lemma shard_losses_equal_batches (m b : nat) (val_loaders : list (list (list scored))) :
  0 < b ->
  Forall (fun vl => length vl = m /\ Forall (fun bt => length bt = b) vl) val_loaders ->
  Qeq (qsum (map (fun vl => qsum (map cross_entropy vl)) val_loaders))
      (Qdiv (qsum (map ex_loss (all_examples val_loaders))) (float b)) /\
  length (all_examples val_loaders) = length val_loaders * (m * b).
Proof.
  intros Hb. assert (Hnz : ~ Qeq (float b) 0) by (apply float_nonzero; lia).
  unfold all_examples.
  induction 1 as [|vl vls [Hm Hvl] _ [IH IHlen]]; cbn [map concat length];
    try rewrite concat_app.
  - split; [|reflexivity]. change (qsum []) with (inject_Z 0). field. exact Hnz.
  - destruct (batch_losses_equal_batches b vl Hb Hvl) as [Hl Hlen].
    split; [|rewrite length_app, IHlen, Hlen, Hm; lia].
    rewrite qsum_cons, IH, Hl, map_app, qsum_app. field. exact Hnz.
Qed.

(** When every worker's validation loader yields [m] batches of [b]
    examples, the loss rank 0 prints is the mean loss over all examples
    multiplied by [m] and divided by [len(train_loader)]. *)
Theorem validation_reported_loss (num_batches m b : nat)
    (val_loaders : list (list (list scored))) :
  val_loaders <> [] -> 0 < m -> 0 < b ->
  Forall (fun vl => length vl = m /\ Forall (fun bt => length bt = b) vl) val_loaders ->
  exists l a, validation_epoch num_batches val_loaders = Ok (l, a) /\
    Qeq l (Qdiv (Qmult (mean_loss (all_examples val_loaders)) (float m))
                (float num_batches)).
Proof.
  intros Hne Hm Hb Hall.
  assert (Hnonempty : Forall (fun vl : list (list scored) => concat vl <> []) val_loaders).
  { eapply Forall_impl; [exact Hall|]. intros vl [Hlen Hvl] E.
    destruct (batch_losses_equal_batches b vl Hb Hvl) as [_ Hc].
    rewrite E, Hlen in Hc. simpl in Hc. nia. }
  destruct (validation_epoch_general num_batches val_loaders Hne Hnonempty)
    as (L & A & _ & He & HL & _).
  exists (Qdiv L (float num_batches)), A. split; [exact He|].
  destruct (shard_losses_equal_batches m b val_loaders Hb Hall) as [Hsum Hlen].
  assert (HLm : Qeq L (Qmult (mean_loss (all_examples val_loaders)) (float m))).
  { rewrite HL, Hsum. unfold mean_loss. rewrite Hlen, !float_mul.
    field. repeat split; apply float_nonzero; try lia.
    destruct val_loaders; simpl; [congruence | lia]. }
  rewrite HLm. reflexivity.
Qed.

Lemma validation_reported_loss_witness :
  uniform_shards <> [] /\
  exists l a, validation_epoch 4 uniform_shards = Ok (l, a) /\
    Qeq l (Qdiv (Qmult (mean_loss (all_examples uniform_shards)) (float 2)) (float 4)).
Proof.
  assert (H1 : uniform_shards <> []) by discriminate.
  split; [exact H1|].
  apply (validation_reported_loss 4 2 1 uniform_shards H1); try lia.
  unfold uniform_shards. repeat constructor.
Defined.

(** ** Training batches: updates, failures, what stays equal *)

Lemma sgd_lookup (ps : list tensor) (gs bufs : list (option tensor)) (i : nat)
    (r : tensor * option tensor) :
  sgd ps gs bufs !! i = Some r <->
  exists p g b, ps !! i = Some p /\ gs !! i = Some g /\ bufs !! i = Some b /\
                r = sgd_param p g b.
Proof.
  revert gs bufs i. induction ps as [|p ps IH]; intros gs bufs i.
  - cbn. split; [discriminate|]. intros (p & g & b & H & _). discriminate.
  - destruct gs as [|g gs]; [cbn; split; [discriminate | intros (? & ? & ? & _ & H & _); discriminate]|].
    destruct bufs as [|b bufs];
      [cbn; split; [discriminate | intros (? & ? & ? & _ & _ & H & _); discriminate]|].
    cbn [sgd]. destruct i as [|i]; cbn [lookup list_lookup].
    + split.
      * intros H. inversion H; subst. eauto 8.
      * intros (p' & g' & b' & Hp & Hg & Hb & ->). congruence.
    + apply IH.
Qed.

Lemma train_batch_unused_helper (n : nat) (locals : list grads) (r : nat) (l : grads) :
  Forall (fun g : grads => length g = n) locals -> locals !! r = Some l ->
  num_parameters locals = n.
Proof.
  intros Hl Hr. destruct locals as [|l0 locals]; [discriminate|].
  inversion Hl; subst. reflexivity.
Qed.

(** A training batch in which autograd leaves one parameter of one rank
    without gradient fails with [AttributeError]: [zero_grad] has cleared
    whatever gradient the parameter had from earlier batches, and the
    synchronizer reads it unguarded. *)
Theorem train_batch_unused_parameter (n : nat) (ws : list worker) (locals : list grads)
    (r i : nat) (l : grads) :
  length locals = length ws ->
  Forall (fun w => length (grad w) = n) ws ->
  Forall (fun g : grads => length g = n) locals ->
  locals !! r = Some l -> l !! i = Some None ->
  train_batch ws locals = Raise AttributeError.
Proof.
  intros Hlen Hws Hl Hr Hi. unfold train_batch.
  rewrite (grads_after_backward n) by assumption.
  rewrite (average_gradients_raises locals r i l Hr); [reflexivity | |].
  - intros t. rewrite Hi. discriminate.
  - rewrite (train_batch_unused_helper n locals r l Hl Hr).
    apply lookup_lt_Some in Hi.
    assert (length l = n) by (eapply (Forall_lookup_1 _ _ _ _ Hl); exact Hr). lia.
Qed.

Lemma train_batch_unused_parameter_witness :
  train_batch [Worker [[1%Q]; [2%Q]] [Some [5%Q]; Some [6%Q]] [None; None] true []]
              [[None; Some [1%Q]]]
  = Raise AttributeError.
Proof.
  apply (train_batch_unused_parameter 2 _ _ 0 0 [None; Some [1%Q]]);
    try reflexivity; repeat constructor.
Defined.

(** A training batch moves parameter [i] of every worker by [lr] times the
    new momentum buffer: the cross-worker mean of this batch's gradients,
    plus [momentum] times the old buffer if there is one; nothing of the
    gradients held before the batch enters. *)
Theorem train_batch_update (n : nat) (ws : list worker) (locals : list grads) :
  length locals = length ws ->
  Forall (fun w => length (grad w) = n) ws ->
  all_defined n locals ->
  exists ws', train_batch ws locals = Ok ws' /\ length ws' = length ws /\
    forall r w w' i p buf,
      ws !! r = Some w -> ws' !! r = Some w' -> i < n ->
      params w !! i = Some p -> momentum_buffer w !! i = Some buf ->
      let b := match buf with
               | None => mean_grad locals i
               | Some b0 => tensor_add (tensor_scale momentum b0) (mean_grad locals i)
               end in
      params w' !! i = Some (tensor_sub p (tensor_scale lr b)) /\
      momentum_buffer w' !! i = Some (Some b) /\
      grad w' !! i = Some (Some (mean_grad locals i)).
Proof.
  intros Hlen Hws Hdef. eexists. split; [apply (train_batch_eq n); assumption|].
  split; [apply length_map|].
  intros r w w' i p buf Hw Hw' Hi Hp Hbuf b.
  rewrite list_lookup_fmap, Hw in Hw'. cbn in Hw'. inversion Hw'; subst w'; clear Hw'.
  assert (HG : synced n locals !! i = Some (Some (mean_grad locals i))).
  { unfold synced. rewrite list_lookup_fmap, lookup_seq_lt by exact Hi. reflexivity. }
  assert (Hs : sgd (params w) (synced n locals) (momentum_buffer w) !! i
               = Some (sgd_param p (Some (mean_grad locals i)) buf)).
  { apply sgd_lookup. eauto 8. }
  cbn [after_batch params momentum_buffer grad].
  rewrite !list_lookup_fmap, Hs. cbn. auto.
Qed.

Lemma train_batch_update_witness :
  exists ws', train_batch (new_group constant_init 2) two_workers_first_batch = Ok ws' /\
              length ws' = 2.
Proof.
  destruct (train_batch_update 1 (new_group constant_init 2) two_workers_first_batch)
    as (ws' & H & Hlen & _).
  - reflexivity.
  - repeat constructor.
  - unfold all_defined, two_workers_first_batch. repeat constructor; eexists; reflexivity.
  - exists ws'. split; [exact H | exact Hlen].
Defined.

Lemma tensor_sub_lookup (p s : tensor) (j : nat) (y : Q) :
  tensor_sub p s !! j = Some y ->
  exists x d, p !! j = Some x /\ s !! j = Some d /\ y = Qminus x d.
Proof.
  unfold tensor_sub. intros H. apply lookup_zip_with_Some in H as (x & d & -> & Hx & Hd).
  eauto.
Qed.

(** Gradient averaging does not bring workers together: two workers with the
    same momentum buffers leave a training batch with the same buffers and
    with exactly the difference between their parameters they entered with
    (entry by entry, as rationals). *)
Theorem train_batch_keeps_differences (n : nat) (ws : list worker) (locals : list grads) :
  length locals = length ws ->
  Forall (fun w => length (grad w) = n) ws ->
  all_defined n locals ->
  exists ws', train_batch ws locals = Ok ws' /\
    forall r1 r2 w1 w2 w1' w2',
      ws !! r1 = Some w1 -> ws !! r2 = Some w2 ->
      ws' !! r1 = Some w1' -> ws' !! r2 = Some w2' ->
      momentum_buffer w1 = momentum_buffer w2 ->
      length (params w1) = length (params w2) ->
      momentum_buffer w1' = momentum_buffer w2' /\
      forall i j p1 p2 p1' p2' x1 x2 y1 y2,
        params w1 !! i = Some p1 -> params w2 !! i = Some p2 ->
        params w1' !! i = Some p1' -> params w2' !! i = Some p2' ->
        p1 !! j = Some x1 -> p2 !! j = Some x2 ->
        p1' !! j = Some y1 -> p2' !! j = Some y2 ->
        Qeq (Qminus y1 y2) (Qminus x1 x2).
Proof.
  intros Hlen Hws Hdef. eexists. split; [apply (train_batch_eq n); assumption|].
  intros r1 r2 w1 w2 w1' w2' H1 H2 H1' H2' Hbuf Hplen.
  rewrite list_lookup_fmap, H1 in H1'. cbn in H1'. inversion H1'; subst w1'; clear H1'.
  rewrite list_lookup_fmap, H2 in H2'. cbn in H2'. inversion H2'; subst w2'; clear H2'.
  generalize (synced n locals). intros G. cbn [after_batch params momentum_buffer]. split.
  - rewrite <- Hbuf. generalize (momentum_buffer w1). intros bufs.
    revert Hplen. generalize (params w1), (params w2). clear.
    intros ps1. revert G bufs. induction ps1 as [|p1 ps1 IH]; intros G bufs [|p2 ps2] Hl;
      try discriminate; [reflexivity|].
    destruct G as [|g G]; [reflexivity|]. destruct bufs as [|b bufs]; [reflexivity|].
    cbn [sgd map]. f_equal.
    + destruct g; reflexivity.
    + apply IH. simpl in Hl. lia.
  - intros i j p1 p2 p1' p2' x1 x2 y1 y2 Hp1 Hp2 Hp1' Hp2' Hx1 Hx2 Hy1 Hy2.
    rewrite list_lookup_fmap in Hp1', Hp2'.
    destruct (sgd (params w1) G (momentum_buffer w1) !! i) as [r1'|] eqn:E1; [|discriminate].
    destruct (sgd (params w2) G (momentum_buffer w2) !! i) as [r2'|] eqn:E2; [|discriminate].
    apply sgd_lookup in E1 as (q1 & g1 & b1 & Hq1 & Hg1 & Hb1 & ->).
    apply sgd_lookup in E2 as (q2 & g2 & b2 & Hq2 & Hg2 & Hb2 & ->).
    rewrite Hbuf in Hb1.
    assert (g1 = g2) by congruence. assert (b1 = b2) by congruence. subst g2 b2.
    assert (q1 = p1) by congruence. assert (q2 = p2) by congruence. subst q1 q2.
    cbn in Hp1', Hp2'. inversion Hp1'; subst p1'; clear Hp1'.
    inversion Hp2'; subst p2'; clear Hp2'.
    destruct g1 as [d|]; cbn [sgd_param fst] in Hy1, Hy2.
    + apply tensor_sub_lookup in Hy1 as (x1' & d1 & Hx1' & Hd1 & ->).
      apply tensor_sub_lookup in Hy2 as (x2' & d2 & Hx2' & Hd2 & ->).
      assert (x1' = x1) by congruence. assert (x2' = x2) by congruence.
      assert (d1 = d2) by congruence. subst. ring.
    + assert (y1 = x1) by congruence. assert (y2 = x2) by congruence. subst. reflexivity.
Qed.

Lemma train_batch_keeps_differences_witness :
  exists ws', train_batch (new_group seeded_init 2) two_workers_first_batch = Ok ws'.
Proof.
  destruct (train_batch_keeps_differences 1 (new_group seeded_init 2) two_workers_first_batch)
    as (ws' & H & _).
  - reflexivity.
  - repeat constructor.
  - unfold all_defined, two_workers_first_batch. repeat constructor; eexists; reflexivity.
  - exists ws'. exact H.
Defined.

(** Ranks 0 and 1 start one apart and stay one apart. *)
Example train_batch_rank_seeded_workers :
  (ws' <- train_batch (new_group seeded_init 2) two_workers_first_batch ;;
   Ok (map params ws'))
  = Ok [ [[-6 # 200]] ; [[194 # 200]] ]%Q.
Proof. reflexivity. Qed.

(** ** Whole epochs *)

Lemma after_batches_consistent (Gs : list grads) (ws : list worker) :
  consistent ws -> consistent (map (after_batches Gs) ws).
Proof.
  revert ws. induction Gs as [|G Gs IH]; intros ws H.
  - unfold after_batches. cbn [foldl]. rewrite map_id. exact H.
  - replace (map (after_batches (G :: Gs)) ws)
      with (map (after_batches Gs) (map (after_batch G) ws))
      by (rewrite map_map; reflexivity).
    apply IH. apply after_batch_consistent. exact H.
Qed.

Lemma epoch_eq (n : nat) (ws : list worker)
    (d : list (list grads) * list (list (list scored))) :
  Forall (fun w => length (grad w) = n) ws -> epoch_data_ok n (length ws) d ->
  epoch ws (fst d) (snd d)
  = Ok (zip_with (fun w vl => log_ops (validation_ops w vl) w)
                 (map (after_batches (map (synced n) (fst d))) ws) (snd d)).
Proof.
  intros Hws (Htl & Hvl & Hne). unfold epoch.
  rewrite (train_batches_eq n) by assumption. cbn [bind].
  destruct (validation_sync_Ok _ Hne) as (ts & ->). reflexivity.
Qed.

Lemma epoch_consistent (n : nat) (ws ws' : list worker)
    (d : list (list grads) * list (list (list scored))) :
  Forall (fun w => length (grad w) = n) ws -> epoch_data_ok n (length ws) d ->
  consistent ws -> epoch ws (fst d) (snd d) = Ok ws' -> consistent ws'.
Proof.
  intros Hws Hd Hc He. rewrite (epoch_eq n ws d Hws Hd) in He. inversion He; subst ws'.
  pose proof (after_batches_consistent (map (synced n) (fst d)) ws Hc) as Hc'.
  intros r1 r2 w1 w2 H1 H2.
  apply lookup_zip_with_Some in H1 as (v1 & vl1 & -> & H1 & _).
  apply lookup_zip_with_Some in H2 as (v2 & vl2 & -> & H2 & _).
  apply (Hc' r1 r2 v1 v2 H1 H2).
Qed.

Lemma epochs_consistent (n K : nat) (es : list nat) (ws : list worker)
    (data : nat -> list (list grads) * list (list (list scored))) :
  length ws = K -> Forall (fun w => length (grad w) = n) ws ->
  (forall e, In e es -> epoch_data_ok n K (data e)) ->
  consistent ws ->
  exists ws', epochs ws es data = Ok ws' /\ consistent ws'.
Proof.
  revert ws. induction es as [|e es IH]; intros ws HK Hws Hd Hc.
  - exists ws. split; [reflexivity | exact Hc].
  - cbn [epochs].
    destruct (epoch_facts n K ws (data e) HK Hws (Hd e (or_introl eq_refl)))
      as (ws1 & He & HK1 & Hws1 & _).
    assert (Hc1 : consistent ws1).
    { eapply (epoch_consistent n ws ws1 (data e)); eauto. rewrite HK. apply Hd. left. reflexivity. }
    rewrite He. cbn [bind].
    apply (IH ws1 HK1 Hws1 (fun e' He' => Hd e' (or_intror He')) Hc1).
Qed.

(** Workers that enter the ten epochs with equal parameters and optimizer
    state leave them with equal parameters and optimizer state: nothing in
    the training or validation loop makes them diverge. *)
Theorem run_training_epochs_consistent (n K : nat) (ws : list worker)
    (data : nat -> list (list grads) * list (list (list scored))) :
  length ws = K -> Forall (fun w => length (grad w) = n) ws ->
  (forall e, e < 10 -> epoch_data_ok n K (data e)) ->
  consistent ws ->
  exists ws', run_training_epochs ws data = Ok ws' /\ consistent ws'.
Proof.
  intros HK Hws Hd Hc. apply (epochs_consistent n K); try assumption.
  intros e He. apply Hd. apply in_seq in He. lia.
Qed.

Lemma run_training_epochs_consistent_witness :
  consistent (new_group constant_init 2) /\
  exists ws', run_training_epochs (new_group constant_init 2) two_workers_data = Ok ws' /\
              consistent ws'.
Proof.
  assert (Hc : consistent (new_group constant_init 2)).
  { intros r1 r2 w1 w2 H1 H2.
    apply new_group_lookup in H1 as [_ ->]. apply new_group_lookup in H2 as [_ ->].
    split; reflexivity. }
  split; [exact Hc|].
  apply (run_training_epochs_consistent 1 2 (new_group constant_init 2) two_workers_data).
  - reflexivity.
  - repeat constructor.
  - intros e _. unfold epoch_data_ok, two_workers_data, two_workers_first_batch, all_defined.
    simpl. repeat split; repeat constructor; try (eexists; reflexivity); discriminate.
  - exact Hc.
Defined.

(** A rank whose validation loader yields no example stops the run: the
    first epoch trains, then fails with [ZeroDivisionError] in the
    validation pass, and no later epoch runs. *)
Theorem run_training_epochs_empty_shard (n : nat) (ws : list worker)
    (data : nat -> list (list grads) * list (list (list scored))) :
  Forall (fun w => length (grad w) = n) ws ->
  Forall (fun locals => length locals = length ws /\ all_defined n locals) (fst (data 0)) ->
  Exists (fun vl => concat vl = []) (snd (data 0)) ->
  (exists ws1, train_batches ws (fst (data 0)) = Ok ws1) /\
  run_training_epochs ws data = Raise ZeroDivisionError.
Proof.
  intros Hws Htl Hex. split.
  - eexists. apply (train_batches_eq n); assumption.
  - unfold run_training_epochs. cbn [seq epochs]. unfold epoch.
    rewrite (train_batches_eq n) by assumption. cbn [bind].
    rewrite (validation_sync_fails _ Hex). reflexivity.
Qed.

Lemma run_training_epochs_empty_shard_witness :
  run_training_epochs (new_group constant_init 2)
    (fun _ => ([two_workers_first_batch], [ [[Scored 0 true]] ; [] ]))
  = Raise ZeroDivisionError.
Proof.
  apply (run_training_epochs_empty_shard 1).
  - repeat constructor.
  - unfold two_workers_first_batch, all_defined. simpl.
    repeat constructor; eexists; reflexivity.
  - simpl. right. left. reflexivity.
Defined.

(** ** [convert_dataset_to_tensor] *)

Lemma fill_rows_flat (d : nat) (dataset : list (ndarray * Z)) :
  Forall (fun e => nd_shape (fst e) = [d]) dataset ->
  fill_rows d dataset
  = Returns (map (fun e => nd_data (fst e)) dataset, map (fun e => inject_Z (snd e)) dataset).
Proof.
  induction 1 as [|[x label] rest Hx _ IH]; cbn [fill_rows map]; [reflexivity|].
  unfold set_row. cbn [fst] in Hx. rewrite decide_True by exact Hx.
  cbn [and_then]. rewrite IH. reflexivity.
Qed.

(** On a non-empty data set whose inputs are all one-dimensional with [d]
    entries, the conversion returns the inputs as the rows of [X], in order,
    and the labels as [y]: nothing is lost or reordered. *)
Theorem convert_dataset_flat (d : nat) (dataset : list (ndarray * Z)) :
  dataset <> [] ->
  Forall (fun e => nd_shape (fst e) = [d]) dataset ->
  convert_dataset_to_tensor dataset
  = Returns (Tensor2 (map (fun e => nd_data (fst e)) dataset) d,
             map (fun e => inject_Z (snd e)) dataset).
Proof.
  intros Hne Hall. destruct dataset as [|[x0 l0] rest]; [congruence|].
  unfold convert_dataset_to_tensor, shape0.
  inversion Hall as [|? ? Hx0 _]; subst. cbn [fst] in Hx0. rewrite Hx0.
  cbn [and_then]. rewrite (fill_rows_flat d _ Hall). reflexivity.
Qed.

Lemma convert_dataset_flat_witness :
  convert_dataset_to_tensor flat_dataset
  = Returns (Tensor2 [[1; 2; 3]; [4; 5; 6]]%Q 3, [7; 9]%Q).
Proof.
  apply (convert_dataset_flat 3 flat_dataset); [discriminate|].
  repeat constructor.
Defined.

Lemma strip_ones_length (s : list nat) : length (strip_ones s) <= length s.
Proof.
  induction s as [|[|[|k]] s IH]; cbn [strip_ones length]; lia.
Qed.

(** On a data set whose first input keeps more than one dimension after its
    leading dimensions of size one are dropped (an image, say), the
    conversion fails at the first assignment [X[0] = ...]: the row of [X]
    has room for [shape[0]] entries only. *)
Theorem convert_dataset_images (x0 : ndarray) (label : Z) (rest : list (ndarray * Z)) :
  2 <= length (strip_ones (nd_shape x0)) ->
  convert_dataset_to_tensor ((x0, label) :: rest) = Throws (Builtin RuntimeError).
Proof.
  intros H. unfold convert_dataset_to_tensor, shape0.
  destruct (nd_shape x0) as [|d s] eqn:Es; [simpl in H; lia|].
  cbn [and_then fill_rows]. unfold set_row. rewrite Es.
  assert (Hne : d :: s <> [d]).
  { intros E. inversion E; subst. pose proof (strip_ones_length [d]). simpl in *. lia. }
  rewrite decide_False by exact Hne.
  destruct (strip_ones (d :: s)) as [|k [|k' s']]; simpl in H; try lia. reflexivity.
Qed.

Lemma convert_dataset_images_witness :
  convert_dataset_to_tensor image_dataset = Throws (Builtin RuntimeError).
Proof.
  apply (convert_dataset_images (NdArray [2; 1; 2] [1; 2; 3; 4]%Q) 7 []).
  simpl. lia.
Defined.

Lemma set_row_length (d : nat) (src : ndarray) (row : tensor) :
  nd_wf src -> set_row d src = Returns row -> length row = d.
Proof.
  unfold nd_wf, set_row. intros Hwf.
  destruct (decide (nd_shape src = [d])) as [E|_].
  - intros H. inversion H; subst. rewrite Hwf, E. simpl. lia.
  - assert (Hprod : forall s, foldr Nat.mul 1 (strip_ones s) = foldr Nat.mul 1 s).
    { induction s as [|[|[|k]] s IH]; cbn [strip_ones foldr]; try reflexivity.
      rewrite IH. lia. }
    destruct (strip_ones (nd_shape src)) as [|k [|k' s']] eqn:Es.
    + intros H. inversion H. apply length_replicate.
    + destruct (decide (k = d)) as [->|_]; [|discriminate].
      intros H. inversion H; subst. rewrite Hwf, <- Hprod, Es. simpl. lia.
    + discriminate.
Qed.

Lemma fill_rows_Returns (d : nat) (dataset : list (ndarray * Z)) (X : list tensor) (y : tensor) :
  fill_rows d dataset = Returns (X, y) ->
  length X = length dataset /\
  y = map (fun e => inject_Z (snd e)) dataset /\
  (Forall (fun e => nd_wf (fst e)) dataset -> Forall (fun row : tensor => length row = d) X).
Proof.
  revert X y. induction dataset as [|[x label] rest IH]; intros X y; cbn [fill_rows].
  - intros H. inversion H; subst. repeat split; constructor.
  - destruct (set_row d x) as [row|e] eqn:Er; cbn [and_then]; [|discriminate].
    destruct (fill_rows d rest) as [[X' y']|e] eqn:Ef; cbn [and_then]; [|discriminate].
    intros H. cbn [fst snd] in H. inversion H; subst X y; clear H.
    destruct (IH X' y' eq_refl) as (Hl & Hy & Hrows).
    cbn [fst snd length map]. split; [lia|]. split; [rewrite Hy; reflexivity|].
    intros Hwf. inversion Hwf; subst. constructor; [|auto].
    eapply set_row_length; eauto.
Qed.

Lemma convert_dataset_labels (dataset : list (ndarray * Z)) (X : tensor2) (y : tensor) :
  convert_dataset_to_tensor dataset = Returns (X, y) ->
  dataset <> [] /\ length y = length dataset.
Proof.
  unfold convert_dataset_to_tensor. destruct dataset as [|[x0 l0] rest]; [discriminate|].
  unfold shape0. destruct (nd_shape x0) as [|d s]; cbn [and_then]; [discriminate|].
  destruct (fill_rows d ((x0, l0) :: rest)) as [[X' y']|e] eqn:Ef; cbn [and_then];
    [|discriminate].
  intros H. cbn [fst snd] in H. inversion H; subst X y; clear H.
  destruct (fill_rows_Returns d _ X' y' Ef) as (_ & Hy & _).
  split; [discriminate|]. rewrite Hy, length_map. reflexivity.
Qed.

(** Whenever the conversion returns, the data set was not empty, [X] has
    one row per example and as many columns as the first input's first
    dimension, every row is full, and [y] holds the labels in order. *)
Theorem convert_dataset_returns (dataset : list (ndarray * Z)) (X : tensor2) (y : tensor) :
  convert_dataset_to_tensor dataset = Returns (X, y) ->
  dataset <> [] /\
  length (rows X) = length dataset /\
  length y = length dataset /\
  y = map (fun e => inject_Z (snd e)) dataset /\
  (exists x0 label rest s, dataset = (x0, label) :: rest /\ nd_shape x0 = cols X :: s) /\
  (Forall (fun e => nd_wf (fst e)) dataset ->
   Forall (fun row : tensor => length row = cols X) (rows X)).
Proof.
  unfold convert_dataset_to_tensor. destruct dataset as [|[x0 l0] rest]; [discriminate|].
  unfold shape0. destruct (nd_shape x0) as [|d s] eqn:Es; cbn [and_then]; [discriminate|].
  destruct (fill_rows d ((x0, l0) :: rest)) as [[X' y']|e] eqn:Ef; cbn [and_then];
    [|discriminate].
  intros H. cbn [fst snd] in H. inversion H; subst X y; clear H.
  destruct (fill_rows_Returns d _ X' y' Ef) as (Hl & Hy & Hrows).
  cbn [rows cols]. split; [discriminate|]. split; [exact Hl|].
  split; [rewrite Hy, length_map; reflexivity|]. split; [exact Hy|].
  split; [eauto 8 | exact Hrows].
Qed.

Lemma convert_dataset_returns_witness :
  length (rows (Tensor2 [[1; 2; 3]; [4; 5; 6]]%Q 3)) = length flat_dataset.
Proof.
  apply (convert_dataset_returns flat_dataset (Tensor2 [[1; 2; 3]; [4; 5; 6]]%Q 3) [7; 9]%Q).
  reflexivity.
Defined.

(** ** The validation set-up, from the data set on *)

(** On rank 0 the validation set-up never completes, whatever the
    validation data set and the world size: an empty data set fails in the
    conversion with [IndexError], and every data set that
    [convert_dataset_to_tensor] accepts fails in [torch.hstack((X, y))] with
    [RuntimeError], [X] being two-dimensional and [y] one-dimensional, so
    that [torch.split], [torch.zeros] and the scatter are not reached. *)
Theorem val_branch_rank0_fails (process_count : nat) (val_dataset : list (ndarray * Z)) :
  (val_dataset = [] -> val_branch_rank0 process_count val_dataset = Throws IndexError) /\
  (forall X y, convert_dataset_to_tensor val_dataset = Returns (X, y) ->
     torch_hstack X y = Raise RuntimeError /\
     val_branch_rank0 process_count val_dataset = Throws (Builtin RuntimeError)) /\
  (val_branch_rank0 process_count val_dataset = Throws IndexError \/
   val_branch_rank0 process_count val_dataset = Throws (Builtin RuntimeError)).
Proof.
  assert (Hconv : forall X y, convert_dataset_to_tensor val_dataset = Returns (X, y) ->
            torch_hstack X y = Raise RuntimeError /\
            val_branch_rank0 process_count val_dataset = Throws (Builtin RuntimeError)).
  { intros X y H. unfold val_branch_rank0. rewrite H. cbn [and_then fst snd].
    destruct (convert_dataset_labels val_dataset X y H) as (Hne & Hy).
    destruct y as [|v y]; [destruct val_dataset; simpl in Hy; congruence|].
    split; reflexivity. }
  split; [intros ->; reflexivity|]. split; [exact Hconv|].
  destruct (convert_dataset_to_tensor val_dataset) as [[X y]|e] eqn:E.
  - right. apply (Hconv X y eq_refl).
  - unfold val_branch_rank0. rewrite E. cbn [and_then].
    revert E. unfold convert_dataset_to_tensor, shape0.
    destruct val_dataset as [|[x0 l0] rest]; [intros H; inversion H; auto|].
    destruct (nd_shape x0) as [|d s]; cbn [and_then]; [intros H; inversion H; auto|].
    assert (Hfill : forall ds r, fill_rows d ds = Throws r -> r = Builtin RuntimeError).
    { induction ds as [|[x l] ds IH]; cbn [fill_rows]; [discriminate|].
      intros r. unfold set_row at 1.
      destruct (decide (nd_shape x = [d])); cbn [and_then].
      - destruct (fill_rows d ds) eqn:Ef; cbn [and_then]; [discriminate|].
        intros H. inversion H; subst. apply IH. reflexivity.
      - destruct (strip_ones (nd_shape x)) as [|k [|k' s']]; cbn [and_then].
        + destruct (fill_rows d ds) eqn:Ef; cbn [and_then]; [discriminate|].
          intros H. inversion H; subst. apply IH. reflexivity.
        + destruct (decide (k = d)); cbn [and_then]; [|intros H; inversion H; reflexivity].
          destruct (fill_rows d ds) eqn:Ef; cbn [and_then]; [discriminate|].
          intros H. inversion H; subst. apply IH. reflexivity.
        + intros H. inversion H. reflexivity. }
    destruct (fill_rows d ((x0, l0) :: rest)) as [r|e'] eqn:Ef; cbn [and_then];
      [discriminate|].
    intros H. inversion H; subst. right. f_equal. eapply Hfill. exact Ef.
Qed.

Lemma val_branch_rank0_fails_witness :
  val_branch_rank0 2 flat_dataset = Throws (Builtin RuntimeError).
Proof.
  destruct (val_branch_rank0_fails 2 flat_dataset) as (_ & H & _).
  apply (H (Tensor2 [[1; 2; 3]; [4; 5; 6]]%Q 3) [7; 9]%Q). reflexivity.
Defined.

(** ** The shapes [Net.forward] accepts *)

Local Set Warnings "-abstract-large-number".

Lemma conv2d_shape_batched (in_c out_c k b c h w : nat) (s : shape) :
  conv2d_shape in_c out_c k [b; c; h; w] = Ok s <->
  c = in_c /\ k <= h /\ k <= w /\ s = [b; out_c; h - k + 1; w - k + 1].
Proof.
  cbn [conv2d_shape].
  destruct (Nat.eqb_spec c in_c), (Nat.leb_spec k h), (Nat.leb_spec k w); cbn [andb];
    split; try discriminate; try (intros (? & ? & ? & ?); lia).
  - intros Hs. inversion Hs. auto.
  - intros (_ & _ & _ & ->). reflexivity.
Qed.

Lemma max_pool2d_shape_batched (k b c h w : nat) (s : shape) :
  max_pool2d_shape k [b; c; h; w] = Ok s <->
  k <= h /\ k <= w /\ s = [b; c; h / k; w / k].
Proof.
  cbn [max_pool2d_shape].
  destruct (Nat.leb_spec k h), (Nat.leb_spec k w); cbn [andb];
    split; try discriminate; try (intros (? & ? & ?); lia).
  - intros Hs. inversion Hs. auto.
  - intros (_ & _ & ->). reflexivity.
Qed.

Lemma linear_shape_matrix (in_f out_f b l : nat) (s : shape) :
  linear_shape in_f out_f [b; l] = Ok s <-> l = in_f /\ s = [b; out_f].
Proof.
  cbn [linear_shape]. destruct (Nat.eqb_spec l in_f); cbn [bind]; split;
    try discriminate; try (intros [? ?]; lia).
  - intros Hs. inversion Hs. auto.
  - intros [_ ->]. reflexivity.
Qed.

(** With a normalization layer that keeps the shape [(B, 128)], the network
    accepts a batch of shape [(B, C, H, W)] exactly when [C = 3], both
    sides are at least 6 and the pooled map has [14 * 14 = 196] cells, as
    for the 32 x 32 images of CIFAR; the result has shape [(B, 100)]. *)
Theorem Net_forward_shape_accepts (bn1 : shape -> result shape) (B C H W : nat) (s : shape) :
  bn1 [B; 128] = Ok [B; 128] ->
  (Net_forward_shape bn1 [B; C; H; W] = Returns s <->
   C = 3 /\ 6 <= H /\ 6 <= W /\ ((H - 4) / 2) * ((W - 4) / 2) = 196 /\ s = [B; 100]).
Proof.
  intros Hbn. unfold Net_forward_shape.
  assert (Hfc : forall h w, 32 * (h * (w * 1)) = 6272 <-> h * w = 196).
  { intros h w. change 6272 with (32 * 196). lia. }
  split.
  - destruct (conv2d_shape 3 32 3 [B; C; H; W]) as [s1|] eqn:E1; cbn [lift and_then];
      [|discriminate].
    apply conv2d_shape_batched in E1 as (HC & HH & HW & ->).
    destruct (conv2d_shape 32 32 3 [B; 32; H - 3 + 1; W - 3 + 1]) as [s2|] eqn:E2;
      cbn [lift and_then]; [|discriminate].
    apply conv2d_shape_batched in E2 as (_ & HH2 & HW2 & ->).
    destruct (max_pool2d_shape 2 [B; 32; H - 3 + 1 - 3 + 1; W - 3 + 1 - 3 + 1])
      as [s3|] eqn:E3; cbn [lift and_then]; [|discriminate].
    apply max_pool2d_shape_batched in E3 as (HH3 & HW3 & ->).
    cbn [flatten1_shape and_then foldr].
    replace (H - 3 + 1 - 3 + 1) with (H - 4) by lia.
    replace (W - 3 + 1 - 3 + 1) with (W - 4) by lia.
    destruct (linear_shape 6272 128 [B; 32 * ((H - 4) / 2 * ((W - 4) / 2 * 1))])
      as [s4|] eqn:E4; cbn [lift and_then]; [|discriminate].
    apply linear_shape_matrix in E4 as (Hl & ->).
    rewrite Hbn. cbn [lift and_then].
    destruct (linear_shape 128 100 [B; 128]) as [s5|] eqn:E5; cbn [lift]; [|discriminate].
    apply linear_shape_matrix in E5 as (_ & ->).
    intros Hs. inversion Hs; subst s. apply Hfc in Hl.
    repeat split; try lia.
  - intros (-> & HH & HW & Hcells & ->).
    assert (E1 : conv2d_shape 3 32 3 [B; 3; H; W] = Ok [B; 32; H - 3 + 1; W - 3 + 1])
      by (apply conv2d_shape_batched; repeat split; lia).
    rewrite E1. cbn [lift and_then].
    assert (E2 : conv2d_shape 32 32 3 [B; 32; H - 3 + 1; W - 3 + 1]
                 = Ok [B; 32; H - 3 + 1 - 3 + 1; W - 3 + 1 - 3 + 1])
      by (apply conv2d_shape_batched; repeat split; lia).
    rewrite E2. cbn [lift and_then].
    assert (E3 : max_pool2d_shape 2 [B; 32; H - 3 + 1 - 3 + 1; W - 3 + 1 - 3 + 1]
                 = Ok [B; 32; (H - 3 + 1 - 3 + 1) / 2; (W - 3 + 1 - 3 + 1) / 2])
      by (apply max_pool2d_shape_batched; repeat split; lia).
    rewrite E3. cbn [lift and_then flatten1_shape foldr].
    replace (H - 3 + 1 - 3 + 1) with (H - 4) by lia.
    replace (W - 3 + 1 - 3 + 1) with (W - 4) by lia.
    assert (E4 : linear_shape 6272 128 [B; 32 * ((H - 4) / 2 * ((W - 4) / 2 * 1))]
                 = Ok [B; 128])
      by (apply linear_shape_matrix; split; [apply Hfc; exact Hcells | reflexivity]).
    rewrite E4. cbn [lift and_then]. rewrite Hbn. cbn [lift and_then].
    assert (E5 : linear_shape 128 100 [B; 128] = Ok [B; 100])
      by (apply linear_shape_matrix; split; reflexivity).
    rewrite E5. reflexivity.
Qed.

Lemma Net_forward_shape_accepts_witness :
  Net_forward_shape (fun s => Ok s) [64; 3; 32; 32] = Returns [64; 100].
Proof.
  apply (Net_forward_shape_accepts (fun s => Ok s) 64 3 32 32 [64; 100]).
  - reflexivity.
  - repeat split; try lia; reflexivity.
Defined.

(** ** [torch.split(val_tensor, process_count)] *)

Lemma torch_split_partition_witness :
  concat (map rows [ Tensor2 [[0; 0]; [1; 0]] 2 ; Tensor2 [[2; 1]; [3; 1]] 2 ;
                     Tensor2 [[4; 0]; [5; 1]] 2 ]%Q)
  = rows six_rows.
Proof.
  apply (torch_split_partition six_rows 2); [lia | reflexivity].
Defined.

Lemma num_splits_eq (m n : nat) :
  1 <= n -> 1 <= m -> (num_splits m n = n <-> (n - 1) * n < m /\ m <= n * n).
Proof.
  intros Hn Hm. unfold num_splits.
  pose proof (Nat.div_mod (m + n - 1) n ltac:(lia)) as Hd.
  pose proof (Nat.mod_upper_bound (m + n - 1) n ltac:(lia)) as Hr.
  set (q := (m + n - 1) / n) in *. set (r := (m + n - 1) mod n) in *.
  assert (Hq : 1 <= q) by nia.
  rewrite Nat.max_l by exact Hq. split.
  - intros ->. nia.
  - intros [H1 H2].
    assert (~ q < n) by nia. assert (~ n < q) by nia. lia.
Qed.

(** The scatter list holds one chunk per rank only for world sizes [N] with
    [(N - 1) * N < M <= N * N], [M] being the number of validation rows:
    for the 10000 rows of the script that is [N = 100] alone. *)
Theorem torch_split_one_chunk_per_rank (N : nat) (val_tensor : tensor2)
    (chunks : list tensor2) :
  1 <= N -> rows val_tensor <> [] ->
  torch_split val_tensor N = Ok chunks ->
  (length chunks = N <->
   (N - 1) * N < length (rows val_tensor) /\ length (rows val_tensor) <= N * N).
Proof.
  intros HN Hne. rewrite torch_split_Ok by exact HN. intros H. inversion H; subst; clear H.
  rewrite length_map, length_seq. apply num_splits_eq; [exact HN|].
  destruct (rows val_tensor); simpl; [congruence | lia].
Qed.

Lemma torch_split_one_chunk_per_rank_witness :
  length [ Tensor2 [[0; 0]; [1; 0]] 2 ; Tensor2 [[2; 1]; [3; 1]] 2 ;
           Tensor2 [[4; 0]; [5; 1]] 2 ]%Q <> 2.
Proof.
  intros E.
  apply (torch_split_one_chunk_per_rank 2 six_rows) in E;
    [simpl in E; lia | lia | discriminate | reflexivity].
Defined.

(** *** Instances of the statements without hypotheses *)

Lemma average_gradients_completes_iff_witness : gradients_defined two_workers_grads.
Proof.
  apply (average_gradients_completes_iff two_workers_grads
           [ [Some [4 # 2; 6 # 2]; Some [8 # 2]] ; [Some [4 # 2; 6 # 2]; Some [8 # 2]] ]%Q).
  reflexivity.
Defined.

Lemma validation_sync_completes_iff_witness :
  Forall (fun vl : list (list scored) => concat vl <> []) even_shards.
Proof.
  apply (validation_sync_completes_iff even_shards). eexists. reflexivity.
Defined.

(** ** [average_gradients] and the order of the ranks *)

Lemma qsum_Permutation (l l' : list Q) : Permutation l l' -> Qeq (qsum l) (qsum l').
Proof.
  induction 1 as [|x l l' _ IH|x y l|l l' l'' _ IH1 _ IH2].
  - reflexivity.
  - rewrite !qsum_cons, IH. reflexivity.
  - rewrite !qsum_cons. ring.
  - rewrite IH1. exact IH2.
Qed.

Lemma foldl_Qplus_qsum (x : Q) (l : list Q) : Qeq (foldl Qplus x l) (Qplus x (qsum l)).
Proof.
  revert x. induction l as [|y l IH]; intros x; cbn [foldl].
  - change (qsum []) with (inject_Z 0). ring.
  - rewrite IH, qsum_cons. ring.
Qed.

(** Entry [j] of the sum of tensors of [m] entries. *)
Lemma tensor_sum_entry (m j : nat) (ts : list tensor) :
  ts <> [] -> Forall (fun t : tensor => length t = m) ts -> j < m ->
  exists s, tensor_sum ts !! j = Some s /\
            Qeq s (qsum (map (fun t : tensor => nth j t 0%Q) ts)).
Proof.
  intros Hne Hm Hj. destruct ts as [|t ts]; [congruence|].
  apply Forall_cons in Hm as [Ht Hts].
  destruct (lookup_lt_is_Some_2 t j ltac:(lia)) as [x Hx].
  eexists. split.
  - apply (tensor_sum_elementwise t ts j x Hx).
    eapply Forall_impl; [exact Hts|]. intros t' Ht'. apply lookup_lt_is_Some_2.
    simpl in Ht'. lia.
  - rewrite foldl_Qplus_qsum. cbn [map]. rewrite qsum_cons.
    rewrite (nth_lookup_Some _ _ _ _ Hx). reflexivity.
Qed.

Lemma tensor_sum_Permutation (m : nat) (ts ts' : list tensor) :
  Permutation ts ts' -> Forall (fun t : tensor => length t = m) ts ->
  tensor_eq (tensor_sum ts) (tensor_sum ts').
Proof.
  intros Hp Hm.
  assert (Hm' : Forall (fun t : tensor => length t = m) ts')
    by (rewrite <- Hp; exact Hm).
  destruct ts as [|t0 ts0] eqn:Ets.
  { apply Permutation_nil_l in Hp. subst ts'. constructor. }
  assert (Hne : ts <> []) by (rewrite Ets; discriminate).
  assert (Hne' : ts' <> []).
  { intros ->. apply Permutation_nil_r in Hp. discriminate. }
  rewrite <- Ets in *. clear Ets t0 ts0.
  unfold tensor_eq. apply Forall2_same_length_lookup_2.
  - rewrite (tensor_sum_length m ts Hne Hm), (tensor_sum_length m ts' Hne' Hm'). reflexivity.
  - intros j x y Hx Hy.
    assert (Hj : j < m).
    { apply lookup_lt_Some in Hx. rewrite (tensor_sum_length m ts Hne Hm) in Hx. exact Hx. }
    destruct (tensor_sum_entry m j ts Hne Hm Hj) as (s & Hs & Es).
    destruct (tensor_sum_entry m j ts' Hne' Hm' Hj) as (s' & Hs' & Es').
    assert (x = s) by congruence. assert (y = s') by congruence. subst.
    rewrite Es, Es'. apply qsum_Permutation. apply Permutation_map. exact Hp.
Qed.

Lemma column_Permutation (i : nat) (ws ws2 : list grads) :
  Permutation ws ws2 -> Permutation (column i ws) (column i ws2).
Proof.
  induction 1 as [|g ws ws2 _ IH|g1 g2 ws|ws ws2 ws3 _ IH1 _ IH2]; cbn [column].
  - constructor.
  - destruct (g !! i) as [[t|]|]; [constructor|..]; exact IH.
  - destruct (g1 !! i) as [[t1|]|], (g2 !! i) as [[t2|]|]; try reflexivity. constructor.
  - rewrite IH1. exact IH2.
Qed.

(** The synchronized gradients do not depend on which rank holds which
    local gradient: if the local gradients are permuted among the ranks, the
    mean of every parameter is the same, entry by entry (the parameter's
    gradients having the same number of entries on all workers). *)
Theorem average_gradients_rank_order (n : nat) (ws ws2 : list grads) :
  Permutation ws ws2 -> all_defined n ws ->
  (forall i, i < n -> exists m, Forall (fun t : tensor => length t = m) (column i ws)) ->
  exists ws' ws2',
    average_gradients ws = Ok ws' /\ average_gradients ws2 = Ok ws2' /\
    forall r r2 (g g2 : grads) i t t2,
      ws' !! r = Some g -> ws2' !! r2 = Some g2 ->
      g !! i = Some (Some t) -> g2 !! i = Some (Some t2) -> tensor_eq t t2.
Proof.
  intros Hp Hdef Hshape.
  assert (Hdef2 : all_defined n ws2) by (unfold all_defined; rewrite <- Hp; exact Hdef).
  eexists _, _. split; [apply (average_gradients_all_defined n ws Hdef)|].
  split; [apply (average_gradients_all_defined n ws2 Hdef2)|].
  intros r r2 g g2 i t t2 Hr Hr2 Hg Hg2.
  apply list_lookup_fmap_Some in Hr as (g0 & -> & _).
  apply list_lookup_fmap_Some in Hr2 as (g0' & -> & _).
  assert (Hi : i < n).
  { apply lookup_lt_Some in Hg. rewrite length_map, length_seq in Hg. exact Hg. }
  rewrite list_lookup_fmap, lookup_seq_lt in Hg, Hg2 by exact Hi.
  cbn in Hg, Hg2. inversion Hg; inversion Hg2; subst t t2. unfold mean_grad.
  destruct (Hshape i Hi) as [m Hm].
  pose proof (tensor_sum_Permutation m _ _ (column_Permutation i ws ws2 Hp) Hm) as Hsum.
  rewrite (Permutation_length Hp).
  unfold tensor_eq, tensor_div in *. apply Forall2_fmap. eapply Forall2_impl; [exact Hsum|].
  intros u v Huv. cbn beta. rewrite Huv. reflexivity.
Qed.

Lemma average_gradients_rank_order_witness :
  exists ws' ws2',
    average_gradients two_workers_grads = Ok ws' /\
    average_gradients (rev two_workers_grads) = Ok ws2'.
Proof.
  destruct (average_gradients_rank_order 2 two_workers_grads (rev two_workers_grads))
    as (ws' & ws2' & H1 & H2 & _).
  - apply Permutation_rev.
  - unfold all_defined, two_workers_grads. repeat constructor; eexists; reflexivity.
  - intros i Hi. destruct i as [|[|i]]; [exists 2 | exists 1 | lia];
      repeat constructor.
  - exists ws', ws2'. split; assumption.
Defined.

(** ** [average_gradients]: the cross-worker mean, entry by entry *)

Lemma column_entries (i j : nat) (ws : list grads) (ts : list tensor) :
  Forall2 (fun (g0 : grads) t => g0 !! i = Some (Some t)) ws ts ->
  map (fun t : tensor => nth j t 0%Q) ts
  = map (fun g0 : grads => match g0 !! i with
                           | Some (Some t0) => nth j t0 0%Q
                           | _ => 0%Q
                           end) ws.
Proof.
  induction 1 as [|g0 t ws ts Hgt _ IH]; cbn [map]; [reflexivity|].
  rewrite Hgt, IH. reflexivity.
Qed.

(** C3: when every parameter has a defined gradient on every worker,
    [average_gradients] completes and all workers end with the same
    gradients; for a parameter whose gradient has [m] entries on every
    worker, entry [j] of the synchronized gradient is the sum over all
    workers of their entry [j], divided by the world size. *)
Theorem average_gradients_cross_worker_mean (n : nat) (ws : list grads) :
  all_defined n ws -> ws <> [] ->
  exists ws', average_gradients ws = Ok ws' /\ length ws' = length ws /\
    (forall r1 r2 g1 g2, ws' !! r1 = Some g1 -> ws' !! r2 = Some g2 -> g1 = g2) /\
    forall r (g : grads) i m,
      ws' !! r = Some g -> i < n ->
      (forall r0 (g0 : grads), ws !! r0 = Some g0 ->
         exists t0, g0 !! i = Some (Some t0) /\ length t0 = m) ->
      exists t : tensor, g !! i = Some (Some t) /\ length t = m /\
        forall j, j < m ->
          exists y, t !! j = Some y /\
            Qeq y (Qdiv (fold_right Qplus 0%Q
                           (map (fun g0 : grads => match g0 !! i with
                                                   | Some (Some t0) => nth j t0 0%Q
                                                   | _ => 0%Q
                                                   end) ws))
                        (inject_Z (Z.of_nat (length ws)))).
Proof.
  intros Hdef Hne.
  eexists. split; [apply (average_gradients_all_defined n ws Hdef)|].
  split; [apply length_map|]. split.
  - intros r1 r2 g1 g2 H1 H2.
    apply list_lookup_fmap_Some in H1 as (? & -> & _).
    apply list_lookup_fmap_Some in H2 as (? & -> & _). reflexivity.
  - intros r g i m Hr Hi Hm.
    apply list_lookup_fmap_Some in Hr as (g0 & -> & _).
    pose proof (all_defined_column n i ws Hdef Hi) as Hcol.
    assert (Hlen : Forall (fun t : tensor => length t = m) (column i ws)).
    { apply Forall_lookup_2. intros k t Hk.
      destruct (Forall2_lookup_r _ _ _ _ _ Hcol Hk) as (g1 & Hg1 & Hg1t).
      destruct (Hm k g1 Hg1) as (t0 & Ht0 & Hl). congruence. }
    assert (Hcne : column i ws <> []).
    { intros E. apply Forall2_length in Hcol. rewrite E in Hcol.
      destruct ws; [congruence | discriminate]. }
    exists (tensor_div (tensor_sum (column i ws)) (float (length ws))).
    split; [rewrite list_lookup_fmap, lookup_seq_lt by exact Hi; reflexivity|].
    split; [unfold tensor_div; rewrite length_map; apply tensor_sum_length; assumption|].
    intros j Hj.
    destruct (tensor_sum_entry m j (column i ws) Hcne Hlen Hj) as (s & Hs & Es).
    exists (Qdiv s (float (length ws))). split.
    + unfold tensor_div. rewrite list_lookup_fmap, Hs. reflexivity.
    + rewrite Es, (column_entries i j ws (column i ws) Hcol). reflexivity.
Qed.

Lemma average_gradients_cross_worker_mean_witness :
  all_defined 2 two_workers_grads /\
  exists ws', average_gradients two_workers_grads = Ok ws' /\ length ws' = 2 /\
    forall g : grads, ws' !! 0 = Some g ->
      exists (t : tensor) y, g !! 0 = Some (Some t) /\ t !! 0 = Some y /\ Qeq y 2.
Proof.
  assert (H : all_defined 2 two_workers_grads).
  { unfold all_defined, two_workers_grads.
    repeat constructor; eexists; reflexivity. }
  split; [exact H|].
  destruct (average_gradients_cross_worker_mean 2 two_workers_grads H)
    as (ws' & Hok & Hlen & _ & Hmean).
  - discriminate.
  - exists ws'. split; [exact Hok|]. split; [exact Hlen|].
    intros g Hg. destruct (Hmean 0 g 0 2 Hg) as (t & Ht & _ & Hentry).
    + lia.
    + intros r0 g0 Hr0. destruct r0 as [|[|r0]]; cbn in Hr0; inversion Hr0; subst;
        eexists; split; reflexivity.
    + destruct (Hentry 0) as (y & Hy & Ey); [lia|].
      exists t, y. split; [exact Ht|]. split; [exact Hy|].
      rewrite Ey. reflexivity.
Defined.

(** ** The training loop: order and effect of the steps *)

Lemma after_batches_app (Gs1 Gs2 : list grads) (w : worker) :
  after_batches (Gs1 ++ Gs2) w = after_batches Gs2 (after_batches Gs1 w).
Proof. unfold after_batches. apply foldl_app. Qed.

Lemma after_batches_same_model (Gs : list grads) (w v : worker) :
  params w = params v -> momentum_buffer w = momentum_buffer v ->
  params (after_batches Gs w) = params (after_batches Gs v) /\
  momentum_buffer (after_batches Gs w) = momentum_buffer (after_batches Gs v).
Proof.
  revert w v. induction Gs as [|G Gs IH]; intros w v Hp Hb; [split; assumption|].
  unfold after_batches. cbn [foldl]. apply IH; cbn [after_batch params momentum_buffer];
    rewrite Hp, Hb; reflexivity.
Qed.

Lemma epochs_state (n K : nat) (es : list nat) (ws : list worker)
    (data : nat -> list (list grads) * list (list (list scored))) :
  length ws = K -> Forall (fun w => length (grad w) = n) ws ->
  (forall e, In e es -> epoch_data_ok n K (data e)) ->
  exists ws', epochs ws es data = Ok ws' /\
    forall r w', ws' !! r = Some w' ->
      exists w, ws !! r = Some w /\
        params w' = params (after_batches (run_gradients n data es) w) /\
        momentum_buffer w'
        = momentum_buffer (after_batches (run_gradients n data es) w).
Proof.
  revert ws. induction es as [|e es IH]; intros ws HK Hws Hd.
  - exists ws. split; [reflexivity|]. intros r w' H. exists w'. auto.
  - cbn [epochs].
    assert (Hde : epoch_data_ok n K (data e)) by (apply Hd; left; reflexivity).
    destruct (epoch_facts n K ws (data e) HK Hws Hde) as (ws1 & He & HK1 & Hws1 & _).
    pose proof He as He'. rewrite (epoch_eq n ws (data e) Hws) in He' by (rewrite HK; exact Hde).
    inversion He' as [E1]. rewrite He. cbn [bind].
    destruct (IH ws1 HK1 Hws1 (fun e' He'' => Hd e' (or_intror He''))) as (ws' & Hrun & H').
    exists ws'. split; [exact Hrun|].
    intros r w' Hr. destruct (H' r w' Hr) as (w1 & Hw1 & Hp & Hb).
    rewrite <- E1 in Hw1.
    apply lookup_zip_with_Some in Hw1 as (v & vl & -> & Hv & _).
    apply list_lookup_fmap_Some in Hv as (w & -> & Hw).
    exists w. split; [exact Hw|].
    unfold run_gradients. cbn [map concat]. rewrite after_batches_app.
    fold (run_gradients n data es).
    destruct (after_batches_same_model (run_gradients n data es)
                (log_ops (validation_ops (after_batches (map (synced n) (fst (data e))) w) vl)
                         (after_batches (map (synced n) (fst (data e))) w))
                (after_batches (map (synced n) (fst (data e))) w) eq_refl eq_refl)
      as [Hp' Hb'].
    rewrite Hp, Hb, Hp', Hb'. split; reflexivity.
Qed.

(** C9: a training batch performs, on every worker and in this order,
    zero-grad, forward, loss, backward, gradient synchronization and the
    optimizer step, and the state shows it: the gradients left are the
    cross-worker mean of this batch alone (zeroed before, synchronized
    after the backward pass) and every parameter has moved by [lr] times the
    momentum buffer built from that mean (the step comes after the
    synchronization). The run is over after ten epochs, each made of its
    training batches, its validation batches and the metric reduction; its
    parameters are those of all the training batches applied in order. *)
Theorem run_training_steps (n K : nat) (ws : list worker)
    (data : nat -> list (list grads) * list (list (list scored))) :
  length ws = K -> Forall (fun w => length (grad w) = n) ws ->
  (forall e, e < 10 -> epoch_data_ok n K (data e)) ->
  (forall locals, length locals = K -> all_defined n locals ->
     exists ws1, train_batch ws locals = Ok ws1 /\ length ws1 = K /\
       forall r w w1, ws !! r = Some w -> ws1 !! r = Some w1 ->
         log w1 = log w ++ [OpZeroGrad; OpForward (mode_of w); OpLoss; OpBackward;
                            OpSyncGradients; OpOptimizerStep] /\
         forall i p buf, i < n ->
           params w !! i = Some p -> momentum_buffer w !! i = Some buf ->
           let b := match buf with
                    | None => mean_grad locals i
                    | Some b0 => tensor_add (tensor_scale momentum b0) (mean_grad locals i)
                    end in
           grad w1 !! i = Some (Some (mean_grad locals i)) /\
           momentum_buffer w1 !! i = Some (Some b) /\
           params w1 !! i = Some (tensor_sub p (tensor_scale lr b))) /\
  exists ws', run_training_epochs ws data = Ok ws' /\ length ws' = K /\
    forall r w', ws' !! r = Some w' ->
      exists w, ws !! r = Some w /\
        log w' = log w ++ run_ops (mode_of w) r data [0; 1; 2; 3; 4; 5; 6; 7; 8; 9] /\
        params w'
        = params (after_batches (run_gradients n data [0; 1; 2; 3; 4; 5; 6; 7; 8; 9]) w).
Proof.
  intros HK Hws Hd. split.
  - intros locals Hlen Hdef. eexists.
    split; [apply (train_batch_eq n); [lia | exact Hws | exact Hdef]|].
    split; [rewrite length_map; exact HK|].
    intros r w w1 Hw Hw1.
    rewrite list_lookup_fmap, Hw in Hw1. cbn in Hw1. inversion Hw1; subst w1; clear Hw1.
    split; [reflexivity|].
    intros i p buf Hi Hp Hbuf b.
    assert (HG : synced n locals !! i = Some (Some (mean_grad locals i))).
    { unfold synced. rewrite list_lookup_fmap, lookup_seq_lt by exact Hi. reflexivity. }
    assert (Hs : sgd (params w) (synced n locals) (momentum_buffer w) !! i
                 = Some (sgd_param p (Some (mean_grad locals i)) buf)).
    { apply sgd_lookup. eauto 8. }
    cbn [after_batch params momentum_buffer grad].
    rewrite !list_lookup_fmap, Hs. cbn. auto.
  - assert (Hd' : forall e, In e (seq 0 10) -> epoch_data_ok n K (data e)).
    { intros e He. apply Hd. apply in_seq in He. lia. }
    destruct (epochs_facts n K (seq 0 10) ws data HK Hws Hd') as (ws' & Hrun & HK' & Hl).
    destruct (epochs_state n K (seq 0 10) ws data HK Hws Hd') as (ws2 & Hrun2 & Hst).
    assert (ws2 = ws') by congruence. subst ws2.
    exists ws'. split; [exact Hrun|]. split; [exact HK'|].
    intros r w' Hr. destruct (Hl r w' Hr) as (w & Hw & _ & Hlog).
    destruct (Hst r w' Hr) as (v & Hv & Hp & _).
    assert (v = w) by congruence. subst v.
    exists w. split; [exact Hw|]. split; [exact Hlog | exact Hp].
Qed.

Lemma run_training_steps_witness :
  length (new_group seeded_init 1) = 1 /\
  exists ws', run_training_epochs (new_group seeded_init 1) tiny_data = Ok ws' /\
              length ws' = 1.
Proof.
  assert (H1 : length (new_group seeded_init 1) = 1) by reflexivity.
  assert (H2 : Forall (fun w => length (grad w) = 1) (new_group seeded_init 1))
    by (repeat constructor).
  assert (H3 : forall e, e < 10 -> epoch_data_ok 1 1 (tiny_data e)).
  { intros e _. unfold epoch_data_ok, tiny_data, all_defined. simpl.
    repeat split; repeat constructor; try (eexists; reflexivity); discriminate. }
  split; [exact H1|].
  destruct (run_training_steps 1 1 (new_group seeded_init 1) tiny_data H1 H2 H3)
    as (_ & ws' & Hrun & Hlen & _).
  exists ws'. split; [exact Hrun | exact Hlen].
Defined.

(** ** The synchronized normalization layer: statistics of the union *)

Lemma qsum_Forall2 (l l' : list Q) : Forall2 Qeq l l' -> Qeq (qsum l) (qsum l').
Proof.
  induction 1 as [|x y l l' Hxy _ IH]; [reflexivity|].
  rewrite !qsum_cons, Hxy, IH. reflexivity.
Qed.

Lemma local_sum_length (d : nat) (b : list tensor) :
  Forall (fun x : tensor => length x = d) b ->
  length (foldl tensor_add (zeros d) b) = d.
Proof.
  assert (H : forall a : tensor, length a = d ->
            Forall (fun x : tensor => length x = d) b ->
            length (foldl tensor_add a b) = d).
  { induction b as [|x b IH]; intros a Ha Hb; [exact Ha|].
    apply Forall_cons in Hb as [Hx Hb]. cbn [foldl]. apply IH; [|exact Hb].
    apply tensor_add_length; assumption. }
  apply H. apply length_replicate.
Qed.

Lemma local_sum_entry (d j : nat) (b : list tensor) :
  Forall (fun x : tensor => length x = d) b -> j < d ->
  exists s, foldl tensor_add (zeros d) b !! j = Some s /\
            Qeq s (qsum (map (fun x : tensor => nth j x 0%Q) b)).
Proof.
  intros Hb Hj. eexists. split.
  - apply (foldl_tensor_add_lookup b (zeros d) j 0%Q).
    + unfold zeros. apply lookup_replicate_2. exact Hj.
    + eapply Forall_impl; [exact Hb|]. intros x Hx. apply lookup_lt_is_Some_2.
      simpl in Hx. lia.
  - rewrite foldl_Qplus_qsum. ring.
Qed.

(** Entry [j] of the reduce-sum of the workers' per-feature sums is the sum
    of entry [j] over all examples of all workers. *)
Lemma reduced_sum_entry (d j : nat) (bs : list (list tensor)) :
  bs <> [] -> Forall (Forall (fun x : tensor => length x = d)) bs -> j < d ->
  length (tensor_sum (map (fun b => foldl tensor_add (zeros d) b) bs)) = d /\
  exists s, tensor_sum (map (fun b => foldl tensor_add (zeros d) b) bs) !! j = Some s /\
            Qeq s (qsum (map (fun x : tensor => nth j x 0%Q) (concat bs))).
Proof.
  intros Hne Hbs Hj.
  set (sums := map (fun b => foldl tensor_add (zeros d) b) bs).
  assert (Hsne : sums <> []) by (unfold sums; destruct bs; [congruence | discriminate]).
  assert (Hlen : Forall (fun t : tensor => length t = d) sums).
  { unfold sums. apply Forall_map. eapply Forall_impl; [exact Hbs|].
    intros b Hb. apply local_sum_length. exact Hb. }
  split; [apply tensor_sum_length; assumption|].
  destruct (tensor_sum_entry d j sums Hsne Hlen Hj) as (s & Hs & Es).
  exists s. split; [exact Hs|]. rewrite Es. unfold sums. rewrite map_map.
  clear -Hbs Hj. induction Hbs as [|b bs Hb _ IH]; cbn [map concat]; [reflexivity|].
  rewrite qsum_cons, map_app, qsum_app, IH.
  destruct (local_sum_entry d j b Hb Hj) as (s & Hs & Es).
  rewrite (nth_lookup_Some _ _ _ _ Hs), Es. reflexivity.
Qed.

Lemma tensor_sq_entries (j : nat) (xs : list tensor) :
  map (fun x : tensor => nth j x 0%Q) (map tensor_sq xs)
  = map (fun x : tensor => Qmult (nth j x 0%Q) (nth j x 0%Q)) xs.
Proof.
  rewrite map_map. apply map_ext. intros x. unfold tensor_sq.
  exact (map_nth (fun v => Qmult v v) x 0%Q j).
Qed.

(** C2: in training mode, on a non-empty global batch of examples with
    [feature_dim] features, the forward pass normalizes with the statistics
    of the union of all workers' batches: for every feature the mean is the
    sum over all examples of all workers divided by their number, the
    variance is the mean of the squares minus the square of the mean, raised
    to the floor if it is below it, and every local example [x] comes out as
    [(x - mean) / sqrt (var + eps)]. *)
Theorem syncbn_forward_train_global (sqrt : Q -> Q) (eps var_floor : Q)
    (feature_dim : nat) (xs : list (list tensor)) :
  concat xs <> [] ->
  Forall (Forall (fun x : tensor => length x = feature_dim)) xs ->
  exists (mean var : tensor) (outs : list (list tensor)),
    syncbn_forward_train sqrt eps var_floor feature_dim xs = Ok outs /\
    length outs = length xs /\ length mean = feature_dim /\ length var = feature_dim /\
    (forall j m v, mean !! j = Some m -> var !! j = Some v ->
       Qeq m (Qdiv (fold_right Qplus 0%Q (map (fun x : tensor => nth j x 0%Q) (concat xs)))
                   (inject_Z (Z.of_nat (length (concat xs))))) /\
       exists u,
         Qeq u (Qminus
                  (Qdiv (fold_right Qplus 0%Q
                           (map (fun x : tensor => Qmult (nth j x 0%Q) (nth j x 0%Q))
                                (concat xs)))
                        (inject_Z (Z.of_nat (length (concat xs)))))
                  (Qmult m m)) /\
         v = if Qle_bool var_floor u then u else var_floor) /\
    (forall r batch k (x : tensor), xs !! r = Some batch -> batch !! k = Some x ->
       exists out (y : tensor), outs !! r = Some out /\ out !! k = Some y /\
         forall j xj m v, x !! j = Some xj -> mean !! j = Some m -> var !! j = Some v ->
           y !! j = Some (Qdiv (Qminus xj m) (sqrt (Qplus v eps)))).
Proof.
  intros Hne Hshape.
  assert (Hxs : xs <> []) by (intros ->; apply Hne; reflexivity).
  destruct (syncbn_forward_train_spec sqrt eps var_floor feature_dim xs Hne)
    as (C & _ & HC & Hout).
  cbn zeta in Hout. rewrite !map_map in Hout. cbn [local_stats local_sum local_sum_sq] in Hout.
  set (gsum := tensor_sum (map (fun b : list tensor => foldl tensor_add (zeros feature_dim) b) xs))
    in *.
  set (gsq := tensor_sum (map (fun b : list tensor =>
                                 foldl tensor_add (zeros feature_dim) (map tensor_sq b)) xs))
    in *.
  set (mean := tensor_div gsum C) in *.
  set (var := zip_with (fun sq m : Q =>
                          clamp_min var_floor (Qminus (Qdiv sq C) (Qmult m m))) gsq mean) in *.
  assert (Hgsq : gsq = tensor_sum (map (fun b : list tensor =>
                                          foldl tensor_add (zeros feature_dim) b)
                                       (map (map tensor_sq) xs)))
    by (unfold gsq; rewrite map_map; reflexivity).
  assert (Hshape2 : Forall (Forall (fun x : tensor => length x = feature_dim))
                           (map (map tensor_sq) xs)).
  { apply Forall_map. eapply Forall_impl; [exact Hshape|]. intros b Hb.
    apply Forall_map. eapply Forall_impl; [exact Hb|]. intros x Hx.
    unfold tensor_sq. cbn beta. rewrite length_map. exact Hx. }
  assert (Hxs2 : map (map tensor_sq) xs <> []) by (destruct xs; [congruence | discriminate]).
  assert (Hlsum : length gsum = feature_dim).
  { unfold gsum. apply tensor_sum_length; [destruct xs; [congruence | discriminate]|].
    apply Forall_map. eapply Forall_impl; [exact Hshape|]. intros b Hb.
    apply local_sum_length. exact Hb. }
  assert (Hlsq : length gsq = feature_dim).
  { rewrite Hgsq. apply tensor_sum_length;
      [destruct xs; [congruence | discriminate]|].
    apply Forall_map. eapply Forall_impl; [exact Hshape2|]. intros b Hb.
    apply local_sum_length. exact Hb. }
  assert (Hlmean : length mean = feature_dim)
    by (unfold mean, tensor_div; rewrite length_map; exact Hlsum).
  assert (HN : ~ Qeq (float (length (concat xs))) 0).
  { apply float_nonzero. destruct (concat xs); simpl; [congruence | lia]. }
  exists mean, var. eexists. split; [exact Hout|].
  split; [apply length_map|]. split; [exact Hlmean|].
  split; [unfold var; rewrite length_zip_with; lia|]. split.
  - intros j m v Hm Hv.
    assert (Hj : j < feature_dim) by (apply lookup_lt_Some in Hm; lia).
    destruct (reduced_sum_entry feature_dim j xs Hxs Hshape Hj) as (_ & s & Hs & Es).
    destruct (reduced_sum_entry feature_dim j _ Hxs2 Hshape2 Hj) as (_ & q & Hq & Eq).
    rewrite <- Hgsq in Hq. fold gsum in Hs.
    unfold mean, tensor_div in Hm. rewrite list_lookup_fmap, Hs in Hm. cbn in Hm.
    inversion Hm; subst m; clear Hm.
    assert (Hmean : mean !! j = Some (Qdiv s C)).
    { unfold mean, tensor_div. rewrite list_lookup_fmap, Hs. reflexivity. }
    unfold var in Hv. rewrite lookup_zip_with, Hq, Hmean in Hv. cbn in Hv.
    inversion Hv; subst v; clear Hv.
    change (inject_Z (Z.of_nat (length (concat xs)))) with (float (length (concat xs))).
    split.
    + rewrite Es, HC. reflexivity.
    + eexists. split; [|reflexivity].
      rewrite Eq, HC. rewrite <- concat_map, tensor_sq_entries. reflexivity.
  - intros r batch k x Hr Hk.
    eexists _, _. split; [rewrite list_lookup_fmap, Hr; reflexivity|].
    split; [rewrite list_lookup_fmap, Hk; reflexivity|].
    intros j xj m v Hx Hm Hv.
    rewrite !lookup_zip_with, Hx, Hm. cbn. rewrite Hv. reflexivity.
Qed.

Lemma syncbn_forward_train_global_witness :
  concat two_local_batches <> [] /\
  exists (mean : tensor) (outs : list (list tensor)),
    syncbn_forward_train (fun q => q) 0 (1 # 100000) 2 two_local_batches = Ok outs /\
    length outs = 2 /\
    forall m, mean !! 0 = Some m -> Qeq m 3.
Proof.
  assert (H : concat two_local_batches <> []) by discriminate.
  split; [exact H|].
  destruct (syncbn_forward_train_global (fun q => q) 0 (1 # 100000) 2 two_local_batches H)
    as (mean & var & outs & Hok & Hlen & Hlm & Hlv & Hstat & _).
  - repeat constructor.
  - exists mean, outs. split; [exact Hok|]. split; [exact Hlen|].
    intros m Hm. destruct (lookup_lt_is_Some_2 var 0) as [v Hv]; [lia|].
    destruct (Hstat 0 m v Hm Hv) as [Em _]. rewrite Em. reflexivity.
Defined.
